(** * Strategy interpreter and strategy library: a shallow embedding

    The development follows [src/strategy-interpreter.js] (class
    [StrategyInterpreter]) and [src/strategy-library.js]
    ([StrategyLibrary.validateStrategy]).

    Conventions of the embedding.
    - A JavaScript number is a value of [num]: an exact rational, or one of
      the IEEE special values [Infinity], [-Infinity], [NaN].  Arithmetic on
      finite values is exact (no rounding, no overflow, a single zero);
      the special values follow IEEE 754, in particular [0/0 = NaN] and
      [x/0 = +-Infinity].
    - Array indices are [nat]; periods are integers ([Z]).
    - A JavaScript object used as an ordered dictionary is an association
      list kept in insertion order ([obj]).
    - A method of the class is a function of the instance state [this].
    - An exception is the [Throw] case of [result]. *)

From Stdlib Require Import String Ascii List ZArith QArith Qcanon Bool Lia.
From Stdlib Require Import DecimalString Lqa.
Import ListNotations.

Set Implicit Arguments.

(** ** Numbers *)

Module Num.

Inductive num : Type :=
| Fin (q : Qc)
| PInf
| NInf
| NaN.

Definition of_Z (z : Z) : num := Fin (Q2Qc (inject_Z z)).
Definition of_nat (n : nat) : num := of_Z (Z.of_nat n).
Definition zero : num := of_Z 0.

Definition neg (x : num) : num :=
  match x with
  | Fin q => Fin (- q)%Qc
  | PInf => NInf
  | NInf => PInf
  | NaN => NaN
  end.

Definition add (x y : num) : num :=
  match x, y with
  | NaN, _ | _, NaN => NaN
  | Fin a, Fin b => Fin (a + b)%Qc
  | PInf, NInf | NInf, PInf => NaN
  | PInf, _ | _, PInf => PInf
  | NInf, _ | _, NInf => NInf
  end.

Definition sub (x y : num) : num := add x (neg y).

(** The infinity carrying the sign of [s] times the sign of [q];
    [0 * Infinity] is [NaN]. *)
Definition scale_inf (q : Qc) (s : num) : num :=
  match (q ?= 0)%Qc with
  | Eq => NaN
  | Gt => s
  | Lt => neg s
  end.

Definition mul (x y : num) : num :=
  match x, y with
  | NaN, _ | _, NaN => NaN
  | Fin a, Fin b => Fin (a * b)%Qc
  | Fin a, s | s, Fin a => scale_inf a s
  | PInf, PInf | NInf, NInf => PInf
  | PInf, NInf | NInf, PInf => NInf
  end.

Definition div (x y : num) : num :=
  match x, y with
  | NaN, _ | _, NaN => NaN
  | Fin a, Fin b =>
      if Qc_eq_dec b 0 then
        match (a ?= 0)%Qc with
        | Eq => NaN
        | Gt => PInf
        | Lt => NInf
        end
      else Fin (a / b)%Qc
  | Fin _, _ => zero
  | s, Fin b =>
      match (b ?= 0)%Qc with
      | Lt => neg s
      | _ => s
      end
  | _, _ => NaN
  end.

(** [x > y] and [x < y] of JavaScript: false as soon as one side is NaN. *)
Definition gt (x y : num) : bool :=
  match x, y with
  | NaN, _ | _, NaN => false
  | Fin a, Fin b => match (a ?= b)%Qc with Gt => true | _ => false end
  | PInf, PInf => false
  | PInf, _ => true
  | _, NInf => match x with NInf => false | _ => true end
  | _, _ => false
  end.

Definition lt (x y : num) : bool := gt y x.

(** [Math.abs]. *)
Definition abs (x : num) : num :=
  match x with
  | Fin q => if gt x zero then x else neg x
  | PInf | NInf => PInf
  | NaN => NaN
  end.

Definition is_NaN (x : num) : bool :=
  match x with NaN => true | _ => false end.

(** Truthiness of a number: [0] and [NaN] are falsy. *)
Definition truthy (x : num) : bool :=
  match x with
  | Fin q => if Qc_eq_dec q 0 then false else true
  | NaN => false
  | _ => true
  end.

Definition eq_dec (x y : num) : {x = y} + {x <> y}.
Proof. decide equality. apply Qc_eq_dec. Defined.

End Num.

Import Num.

Declare Scope num_scope.
Delimit Scope num_scope with num.
Bind Scope num_scope with num.
Infix "+" := add : num_scope.
Infix "-" := sub : num_scope.
Infix "*" := mul : num_scope.
Infix "/" := div : num_scope.

(** ** JavaScript values, ordered objects, exceptions *)

(** The values an indicator array holds: [null] during warm-up, a number
    afterwards.  Reading an array out of range gives [undefined], which is
    the [None] of [nth_error]. *)
Inductive jsval : Type :=
| JNull
| JNum (n : num).

Inductive error : Type :=
| TypeError
| Error (message : string).

Inductive result (A : Type) : Type :=
| Ok (a : A)
| Throw (e : error).

Arguments Ok {A} a.
Arguments Throw {A} e.

Definition bind {A B : Type} (r : result A) (k : A -> result B) : result B :=
  match r with
  | Ok a => k a
  | Throw e => Throw e
  end.

Notation "x <- r ;; k" := (bind r (fun x => k))
  (at level 61, r at next level, right associativity).

Section Obj.
Variable V : Type.

(** Own enumerable string keys in insertion order. *)
Definition obj : Type := list (string * V).

Fixpoint obj_get (o : obj) (k : string) : option V :=
  match o with
  | [] => None
  | (k', v) :: o' => if String.eqb k' k then Some v else obj_get o' k
  end.

(** [o[k] = v]: an existing key keeps its position, a new key goes last. *)
Fixpoint obj_set (o : obj) (k : string) (v : V) : obj :=
  match o with
  | [] => [(k, v)]
  | (k', v') :: o' =>
      if String.eqb k' k then (k', v) :: o' else (k', v') :: obj_set o' k v
  end.

Definition obj_keys (o : obj) : list string := map fst o.
End Obj.

(** ** Data model *)

Record Bar : Type := mkBar {
  time : Z;
  open : num;
  high : num;
  low : num;
  close : num;
  volume : num
}.

Inductive Action : Type := BUY | SELL.

Record Trade : Type := mkTrade {
  t_time : Z;
  action : Action;
  price : num;
  index : nat;
  profit : option num;
  profitPercent : option num
}.

Inductive MarkerPosition : Type := belowBar | aboveBar.

Record Marker : Type := mkMarker {
  m_time : Z;
  position : MarkerPosition;
  color : string;
  shape : string;
  text : string;
  size : nat
}.

(** The instance state of [StrategyInterpreter]. *)
Record Interp : Type := mkInterp {
  indicators : obj (list jsval);
  data : list Bar;
  trades : list Trade;
  buyMarkers : list Marker;
  sellMarkers : list Marker
}.

(** ** Array helpers *)

(** [Array.prototype.slice(start, end)] with integer arguments. *)
Definition slice {A : Type} (start stop : Z) (l : list A) : list A :=
  let len := Z.of_nat (List.length l) in
  let rel (k : Z) := if (k <? 0)%Z then Z.max (len + k) 0 else Z.min k len in
  let s := rel start in
  let e := rel stop in
  firstn (Z.to_nat (e - s)) (skipn (Z.to_nat s) l).

(** [l.reduce((acc, x) => acc + f(x), 0)]. *)
Definition sum_by {A : Type} (f : A -> num) (l : list A) : num :=
  fold_left (fun acc x => (acc + f x)%num) l zero.

(** [for (let i = 0; i < l.length; i++)] reading [l[i]]: the elements of
    [l] paired with their indices. *)
Definition indexed {A : Type} (l : list A) : list (nat * A) :=
  combine (seq 0 (List.length l)) l.

(** ** Indicators *)

Definition calculateSMA (this : Interp) (period : Z) : list jsval :=
  map (fun i : nat =>
         if (Z.of_nat i <? period - 1)%Z then JNull
         else
           let sum :=
             sum_by close
               (slice (Z.of_nat i - period + 1) (Z.of_nat i + 1) (data this)) in
           JNum (sum / of_Z period))
      (seq 0 (List.length (data this))).

(** One round of the loop of [calculateEMA]; the state is
    [(prevEma, ema)]. *)
Definition ema_step (k : num) (st : num * list num) (ib : nat * Bar)
  : num * list num :=
  let '(prevEma, ema) := st in
  let '(i, bar) := ib in
  let nextEma :=
    if Nat.eqb i 0 then close bar
    else (close bar * k + prevEma * (of_Z 1 - k))%num in
  (nextEma, ema ++ [nextEma]).

(** [calculateEMA(period)] declares a single parameter and reads
    [this.data]; [this.data[0].close] throws a [TypeError] when the series
    is empty. *)
Definition calculateEMA (this : Interp) (period : Z) : result (list num) :=
  let k := (of_Z 2 / of_Z (period + 1))%num in
  match data this with
  | [] => Throw TypeError
  | first :: _ =>
      Ok (snd (fold_left (ema_step k) (indexed (data this)) (close first, [])))
  end.

Record MACD : Type := mkMACD {
  macd : list num;
  signal : list num;
  histogram : list num
}.

(** [a.map((x, i) => x - b[i])]; [x - undefined] is [NaN]. *)
Definition sub_at (a b : list num) : list num :=
  map (fun '(i, x) =>
         match nth_error b i with
         | Some y => (x - y)%num
         | None => NaN
         end)
      (indexed a).

(** The call [this.calculateEMA(signalPeriod, macdLine.map(...))] passes a
    second argument that [calculateEMA] does not declare: it is dropped and
    the signal line is computed from [this.data]. *)
Definition calculateMACD (this : Interp) (fastPeriod slowPeriod signalPeriod : Z)
  : result MACD :=
  fastEMA <- calculateEMA this fastPeriod ;;
  slowEMA <- calculateEMA this slowPeriod ;;
  let macdLine := sub_at fastEMA slowEMA in
  signalLine <- calculateEMA this signalPeriod ;;
  let histogram := sub_at macdLine signalLine in
  Ok (mkMACD macdLine signalLine histogram).

(** [calculateRSI]: the per-bar changes [data[i].close - data[i-1].close]
    for [i = 1 .. length-1]. *)
Fixpoint price_changes (l : list Bar) : list num :=
  match l with
  | a :: (b :: _) as tl => (close b - close a)%num :: price_changes tl
  | _ => []
  end.

Definition gain_of (change : num) : num :=
  if gt change zero then change else zero.

Definition loss_of (change : num) : num :=
  if lt change zero then abs change else zero.

Definition rsi_avg (series : list num) (i : nat) (period : Z) : num :=
  (sum_by (fun x => x) (slice (Z.of_nat i - period + 1) (Z.of_nat i + 1) series)
   / of_Z period)%num.

Definition rsi_value (avgGain avgLoss : num) : num :=
  let rs := (avgGain / avgLoss)%num in
  (of_Z 100 - of_Z 100 / (of_Z 1 + rs))%num.

Definition calculateRSI (this : Interp) (period : Z) : list jsval :=
  let gains := map gain_of (price_changes (data this)) in
  let losses := map loss_of (price_changes (data this)) in
  map (fun i : nat =>
         if (Z.of_nat i <? period)%Z then JNull
         else
           let avgGain := rsi_avg gains i period in
           let avgLoss := rsi_avg losses i period in
           JNum (rsi_value avgGain avgLoss))
      (seq 0 (List.length (data this))).

(** [ToNumber] of an array read: [undefined] is [NaN], [null] is [0]. *)
Definition to_number (v : option jsval) : num :=
  match v with
  | Some (JNum n) => n
  | Some JNull => zero
  | None => NaN
  end.

Record Bands : Type := mkBands {
  upper : list jsval;
  middle : list jsval;
  lower : list jsval
}.

Section Bollinger.
(** [Math.sqrt], which the rationals do not have, is taken from the
    platform. *)
Variable Math_sqrt : num -> num.

Definition bollinger_at (this : Interp) (sma : list jsval) (period : Z)
    (stdDev : num) (i : nat) : jsval * jsval :=
  if (Z.of_nat i <? period - 1)%Z then (JNull, JNull)
  else
    let window := slice (Z.of_nat i - period + 1) (Z.of_nat i + 1) (data this) in
    let mean := to_number (nth_error sma i) in
    let variance :=
      (sum_by (fun candle => (close candle - mean) * (close candle - mean)) window
       / of_Z period)%num in
    let standardDeviation := Math_sqrt variance in
    (JNum (mean + standardDeviation * stdDev),
     JNum (mean - standardDeviation * stdDev)).

Definition calculateBollingerBands (this : Interp) (period : Z) (stdDev : num)
  : Bands :=
  let sma := calculateSMA this period in
  let rows :=
    map (bollinger_at this sma period stdDev)
        (seq 0 (List.length (data this))) in
  mkBands (map fst rows) sma (map snd rows).
End Bollinger.

(** [candle.volume || 0]. *)
Definition volume_or_0 (candle : Bar) : num :=
  if truthy (volume candle) then volume candle else zero.

Definition calculateVolumeSMA (this : Interp) (period : Z) : list jsval :=
  map (fun i : nat =>
         if (Z.of_nat i <? period - 1)%Z then JNull
         else
           let sum :=
             sum_by volume_or_0
               (slice (Z.of_nat i - period + 1) (Z.of_nat i + 1) (data this)) in
           JNum (sum / of_Z period))
      (seq 0 (List.length (data this))).

(** ** Strategy descriptors *)

(** A buy or sell condition.  A callable may throw; any other kind of value
    is only ever tested for truthiness. *)
Inductive Predicate : Type :=
| Callable (f : obj jsval -> list Bar -> nat -> result bool)
| Expression (source : string)
| OtherValue (is_truthy : bool).

Module Ind.
Record RsiConfig : Type := mkRsi { period : option Z }.
Record MacdConfig : Type := mkMacd {
  fastPeriod : option Z;
  slowPeriod : option Z;
  signalPeriod : option Z
}.
Record BollingerConfig : Type := mkBollinger {
  bb_period : option Z;
  stdDev : option num
}.
Record VolumeConfig : Type := mkVolume { vol_period : option Z }.

(** [strategy.indicators]; an absent key is [None]. *)
Record t : Type := mk {
  sma : option (list Z);
  ema : option (list Z);
  rsi : option RsiConfig;
  macd : option MacdConfig;
  bollinger : option BollingerConfig;
  volume : option VolumeConfig
}.
End Ind.

Module Strategy.
Record Conditions : Type := mkConditions {
  buy : option Predicate;
  sell : option Predicate
}.

Record t : Type := mk {
  name : option string;
  indicators : option Ind.t;
  conditions : option Conditions;
  data : option (list Bar)
}.
End Strategy.

(** [strategy.indicators?.f]. *)
Definition ind_field {A : Type} (strategy : Strategy.t) (f : Ind.t -> option A)
  : option A :=
  match Strategy.indicators strategy with
  | Some ind => f ind
  | None => None
  end.

(** [p || d] on an optional integer: [undefined] and [0] are falsy. *)
Definition or_default (p : option Z) (d : Z) : Z :=
  match p with
  | Some z => if (z =? 0)%Z then d else z
  | None => d
  end.

Definition or_default_num (p : option num) (d : num) : num :=
  match p with
  | Some x => if truthy x then x else d
  | None => d
  end.

(** Template literal on an integer. *)
Definition string_of_Z (z : Z) : string := NilZero.string_of_int (Z.to_int z).

(** ** The interpreter monad: instance state and exceptions *)

Definition M (A : Type) : Type := Interp -> Interp * result A.

Definition ret {A : Type} (a : A) : M A := fun this => (this, Ok a).

Definition throw {A : Type} (e : error) : M A := fun this => (this, Throw e).

Definition mbind {A B : Type} (m : M A) (k : A -> M B) : M B :=
  fun this =>
    match m this with
    | (this', Ok a) => k a this'
    | (this', Throw e) => (this', Throw e)
    end.

Definition lift {A : Type} (r : result A) : M A := fun this => (this, r).

Definition get : M Interp := fun this => (this, Ok this).

Notation "x <~ m ;; k" := (mbind m (fun x => k))
  (at level 61, m at next level, right associativity).
Notation "m ;;; k" := (mbind m (fun _ => k))
  (at level 61, right associativity).

(** [l.forEach(f)]. *)
Fixpoint forEach {A : Type} (f : A -> M unit) (l : list A) : M unit :=
  match l with
  | [] => ret tt
  | x :: l' => f x ;;; forEach f l'
  end.

(** [if (c) { body }] where [c] is an optional field. *)
Definition when_some {A : Type} (o : option A) (body : A -> M unit) : M unit :=
  match o with
  | Some a => body a
  | None => ret tt
  end.

(** [this.indicators[key] = series]. *)
Definition set_indicator (key : string) (series : list jsval) : M unit :=
  fun this =>
    (mkInterp (obj_set (indicators this) key series) (data this) (trades this)
              (buyMarkers this) (sellMarkers this),
     Ok tt).

Definition clear_indicators : M unit :=
  fun this =>
    (mkInterp [] (data this) (trades this) (buyMarkers this) (sellMarkers this),
     Ok tt).

Definition reset : M unit :=
  fun _ => (mkInterp [] [] [] [] [], Ok tt).

Definition set_data (d : list Bar) : M unit :=
  fun this =>
    (mkInterp (indicators this) d (trades this) (buyMarkers this)
              (sellMarkers this),
     Ok tt).

(** The blocks of [calculateIndicators], one per indicator family. *)
Definition sma_indicators (strategy : Strategy.t) : M unit :=
  when_some (ind_field strategy Ind.sma) (fun periods =>
    forEach (fun period =>
      this <~ get ;;
      set_indicator ("sma" ++ string_of_Z period) (calculateSMA this period))
      periods).

Definition ema_indicators (strategy : Strategy.t) : M unit :=
  when_some (ind_field strategy Ind.ema) (fun periods =>
    forEach (fun period =>
      this <~ get ;;
      series <~ lift (calculateEMA this period) ;;
      set_indicator ("ema" ++ string_of_Z period) (map JNum series))
      periods).

Definition rsi_indicator (strategy : Strategy.t) : M unit :=
  when_some (ind_field strategy Ind.rsi) (fun cfg =>
    this <~ get ;;
    set_indicator "rsi" (calculateRSI this (or_default (Ind.period cfg) 14))).

Definition macd_indicators (strategy : Strategy.t) : M unit :=
  when_some (ind_field strategy Ind.macd) (fun macdConfig =>
    this <~ get ;;
    macdResult <~ lift (calculateMACD this
                          (or_default (Ind.fastPeriod macdConfig) 12)
                          (or_default (Ind.slowPeriod macdConfig) 26)
                          (or_default (Ind.signalPeriod macdConfig) 9)) ;;
    set_indicator "macd" (map JNum (macd macdResult)) ;;;
    set_indicator "macdSignal" (map JNum (signal macdResult)) ;;;
    set_indicator "macdHistogram" (map JNum (histogram macdResult))).

Definition volume_indicator (strategy : Strategy.t) : M unit :=
  when_some (ind_field strategy Ind.volume) (fun cfg =>
    this <~ get ;;
    set_indicator "volumeSMA"
      (calculateVolumeSMA this (or_default (Ind.vol_period cfg) 20))).

Section Indicators.
Variable Math_sqrt : num -> num.

Definition bollinger_indicators (strategy : Strategy.t) : M unit :=
  when_some (ind_field strategy Ind.bollinger) (fun bbConfig =>
    this <~ get ;;
    let bbResult :=
      calculateBollingerBands Math_sqrt this
        (or_default (Ind.bb_period bbConfig) 20)
        (or_default_num (Ind.stdDev bbConfig) (of_Z 2)) in
    set_indicator "bbUpper" (upper bbResult) ;;;
    set_indicator "bbMiddle" (middle bbResult) ;;;
    set_indicator "bbLower" (lower bbResult)).

Definition calculateIndicators (strategy : Strategy.t) : M unit :=
  clear_indicators ;;;
  sma_indicators strategy ;;;
  ema_indicators strategy ;;;
  rsi_indicator strategy ;;;
  macd_indicators strategy ;;;
  bollinger_indicators strategy ;;;
  volume_indicator strategy.
End Indicators.

(** ** Start index and per-index indicator values *)

Definition push_some {A : Type} (o : option (list A)) (periods : list A)
  : list A :=
  match o with
  | Some l => periods ++ l
  | None => periods
  end.

(** [Math.max(...periods, 0)]. *)
Definition max_with_0 (periods : list Z) : Z :=
  fold_left Z.max (periods ++ [0%Z]) 0%Z.

Definition getStartIndex (strategy : Strategy.t) : Z :=
  let periods := [] in
  let periods := push_some (ind_field strategy Ind.sma) periods in
  let periods := push_some (ind_field strategy Ind.ema) periods in
  let periods :=
    match ind_field strategy Ind.rsi with
    | Some cfg => periods ++ [or_default (Ind.period cfg) 14]
    | None => periods
    end in
  let periods :=
    match ind_field strategy Ind.bollinger with
    | Some cfg => periods ++ [or_default (Ind.bb_period cfg) 20]
    | None => periods
    end in
  max_with_0 periods.

(** [getIndicatorValues(index)]: a key is copied when the array read is not
    [undefined], that is when [index] is within the array; a [null] entry is
    copied as it is. *)
Definition getIndicatorValues (this : Interp) (index : nat) : obj jsval :=
  fold_left
    (fun values key =>
       match obj_get (indicators this) key with
       | Some series =>
           match nth_error series index with
           | Some v => obj_set values key v
           | None => values
           end
       | None => values
       end)
    (obj_keys (indicators this)) [].

(** ** Condition evaluation *)

(** [s.replace(new RegExp(key, 'g'), repl)] for a key that is a non-empty
    run of letters and digits (every key the interpreter creates): the
    pattern matches the key's text wherever it occurs, leftmost first and
    without overlap.  [skip] counts the characters of a match still to be
    consumed. *)
Fixpoint replace_from (key repl : string) (skip : nat) (s : string) : string :=
  match s with
  | EmptyString => EmptyString
  | String c s' =>
      match skip with
      | S k => replace_from key repl k s'
      | O =>
          if String.prefix key s
          then repl ++ replace_from key repl (String.length key - 1) s'
          else String c (replace_from key repl O s')
      end
  end.

Definition replace_all (key repl s : string) : string :=
  replace_from key repl 0 s.

Section Conditions.
(** The platform's [String(number)] and [eval]: [js_eval] gives the
    truthiness of the value of the evaluated text, or the exception it
    throws. *)
Variable Number_toString : num -> string.
Variable js_eval : string -> result bool.

Definition to_string (v : jsval) : string :=
  match v with
  | JNull => "null"
  | JNum n => Number_toString n
  end.

(** The object literal of [evaluateExpression]. *)
Definition expression_context (indicatorValues : obj jsval) (bar : Bar)
    (index : nat) : obj jsval :=
  let context := indicatorValues in
  let context := obj_set context "price" (JNum (close bar)) in
  let context := obj_set context "high" (JNum (high bar)) in
  let context := obj_set context "low" (JNum (low bar)) in
  let context := obj_set context "open" (JNum (open bar)) in
  obj_set context "index" (JNum (of_nat index)).

(** The [forEach] over [Object.keys(context)]: every key in turn is
    replaced in the text produced so far. *)
Definition substitute (context : obj jsval) (expression : string) : string :=
  fold_left
    (fun evalExpression key =>
       match obj_get context key with
       | Some v => replace_all key (to_string v) evalExpression
       | None => evalExpression
       end)
    (obj_keys context) expression.

Definition evaluateExpression (this : Interp) (expression : string)
    (indicatorValues : obj jsval) (index : nat) : result bool :=
  match nth_error (data this) index with
  | None => Throw TypeError
  | Some bar =>
      let context := expression_context indicatorValues bar index in
      match js_eval (substitute context expression) with
      | Ok b => Ok b
      | Throw _ => Ok false
      end
  end.

Definition evaluateCondition (this : Interp) (condition : option Predicate)
    (indicatorValues : obj jsval) (index : nat) : result bool :=
  match condition with
  | Some (Callable f) => f indicatorValues (data this) index
  | Some (Expression source) =>
      evaluateExpression this source indicatorValues index
  | _ => Ok false
  end.

(** ** Trade simulation *)

(** The local variables of [executeTradingLogic]. *)
Record Position : Type := mkPosition {
  inPosition : bool;
  entryPrice : num;
  entryTime : Z
}.

Definition push_trade (t : Trade) : M unit :=
  fun this =>
    (mkInterp (indicators this) (data this) (trades this ++ [t])
              (buyMarkers this) (sellMarkers this),
     Ok tt).

Definition push_buyMarker (m : Marker) : M unit :=
  fun this =>
    (mkInterp (indicators this) (data this) (trades this)
              (buyMarkers this ++ [m]) (sellMarkers this),
     Ok tt).

Definition push_sellMarker (m : Marker) : M unit :=
  fun this =>
    (mkInterp (indicators this) (data this) (trades this)
              (buyMarkers this) (sellMarkers this ++ [m]),
     Ok tt).

(** [strategy.conditions.buy]: reading a property of [undefined] throws. *)
Definition condition_of (strategy : Strategy.t)
    (side : Strategy.Conditions -> option Predicate)
  : result (option Predicate) :=
  match Strategy.conditions strategy with
  | Some c => Ok (side c)
  | None => Throw TypeError
  end.

(** The body of the loop of [executeTradingLogic] at index [i], where
    [currentData = this.data[i]]. *)
Definition trade_step (strategy : Strategy.t) (pos : Position) (i : nat)
    (currentData : Bar) : M Position :=
  this <~ get ;;
  let indicatorValues := getIndicatorValues this i in
  if negb (inPosition pos) then
    buy <~ lift (condition_of strategy Strategy.buy) ;;
    holds <~ lift (evaluateCondition this buy indicatorValues i) ;;
    if holds then
      push_trade (mkTrade (time currentData) BUY (close currentData) i
                          None None) ;;;
      push_buyMarker (mkMarker (time currentData) belowBar "green" "arrowUp"
                               "Buy" 1) ;;;
      ret (mkPosition true (close currentData) (time currentData))
    else ret pos
  else
    sell <~ lift (condition_of strategy Strategy.sell) ;;
    holds <~ lift (evaluateCondition this sell indicatorValues i) ;;
    if holds then
      push_trade (mkTrade (time currentData) SELL (close currentData) i
                          (Some (close currentData - entryPrice pos)%num)
                          (Some ((close currentData - entryPrice pos)
                                 / entryPrice pos * of_Z 100)%num)) ;;;
      push_sellMarker (mkMarker (time currentData) aboveBar "red" "arrowDown"
                                "Sell" 1) ;;;
      ret (mkPosition false (entryPrice pos) (entryTime pos))
    else ret pos.

(** The [for] loop over the bars still to visit, each with its index. *)
Fixpoint trade_loop (strategy : Strategy.t) (pos : Position)
    (bars : list (nat * Bar)) : M Position :=
  match bars with
  | [] => ret pos
  | (i, currentData) :: rest =>
      pos' <~ trade_step strategy pos i currentData ;;
      trade_loop strategy pos' rest
  end.

Definition executeTradingLogic (strategy : Strategy.t) : M unit :=
  let pos := mkPosition false zero 0 in
  let startIndex := getStartIndex strategy in
  this <~ get ;;
  trade_loop strategy pos (skipn (Z.to_nat startIndex) (indexed (data this))) ;;;
  ret tt.
End Conditions.

(** ** Statistics *)

Record Stats : Type := mkStats {
  totalTrades : nat;
  buyTrades : nat;
  sellTrades : nat;
  wins : nat;
  losses : nat;
  totalProfit : num;
  totalProfitPercent : num;
  maxDrawdown : num;
  winRate : num;
  avgWin : num;
  avgLoss : num
}.

Definition is_action (a : Action) (t : Trade) : bool :=
  match a, action t with
  | BUY, BUY | SELL, SELL => true
  | _, _ => false
  end.

(** One round of the loop of [calculateStatistics] on
    [buy = trades[i-1]], [sell = trades[i]]; the state is [(stats, peak)].
    [currentDrawdown] is assigned in every round before it is read. *)
Definition stats_pair (buy sell : Trade) (st : Stats * num) : Stats * num :=
  let '(stats, peak) := st in
  if is_action BUY buy && is_action SELL sell then
    let profit := (price sell - price buy)%num in
    let profitPercent := ((price sell - price buy) / price buy * of_Z 100)%num in
    let totalProfit' := (totalProfit stats + profit)%num in
    let totalProfitPercent' := (totalProfitPercent stats + profitPercent)%num in
    let won := gt profit zero in
    let wins' := if won then S (wins stats) else wins stats in
    let avgWin' := if won then (avgWin stats + profit)%num else avgWin stats in
    let losses' := if won then losses stats else S (losses stats) in
    let avgLoss' :=
      if won then avgLoss stats else (avgLoss stats + abs profit)%num in
    let peak' := if gt totalProfit' peak then totalProfit' else peak in
    let currentDrawdown := (peak' - totalProfit')%num in
    let maxDrawdown' :=
      if gt currentDrawdown (maxDrawdown stats) then currentDrawdown
      else maxDrawdown stats in
    (mkStats (totalTrades stats) (buyTrades stats) (sellTrades stats)
             wins' losses' totalProfit' totalProfitPercent' maxDrawdown'
             (winRate stats) avgWin' avgLoss',
     peak')
  else st.

(** [for (let i = 1; i < trades.length; i += 2)]: the log is read two
    entries at a time, a last unpaired entry is left out. *)
Fixpoint stats_loop (ts : list Trade) (st : Stats * num) : Stats * num :=
  match ts with
  | buy :: sell :: rest => stats_loop rest (stats_pair buy sell st)
  | _ => st
  end.

Definition calculateStatistics (this : Interp) : Stats :=
  let stats :=
    mkStats (List.length (trades this))
            (List.length (filter (is_action BUY) (trades this)))
            (List.length (filter (is_action SELL) (trades this)))
            0 0 zero zero zero zero zero zero in
  let peak := zero in
  let '(stats, _) := stats_loop (trades this) (stats, peak) in
  let winRate' :=
    if (0 <? wins stats + losses stats)%nat
    then (of_nat (wins stats) / of_nat (wins stats + losses stats) * of_Z 100)%num
    else zero in
  let avgWin' :=
    if (0 <? wins stats)%nat then (avgWin stats / of_nat (wins stats))%num
    else zero in
  let avgLoss' :=
    if (0 <? losses stats)%nat then (avgLoss stats / of_nat (losses stats))%num
    else zero in
  mkStats (totalTrades stats) (buyTrades stats) (sellTrades stats)
          (wins stats) (losses stats) (totalProfit stats)
          (totalProfitPercent stats) (maxDrawdown stats)
          winRate' avgWin' avgLoss'.

(** ** A whole run *)

Record Report : Type := mkReport {
  r_trades : list Trade;
  r_buyMarkers : list Marker;
  r_sellMarkers : list Marker;
  stats : Stats;
  strategyName : string
}.

(** [strategy.name || 'Custom Strategy']: an empty name is falsy. *)
Definition name_or_default (strategy : Strategy.t) : string :=
  match Strategy.name strategy with
  | Some n => if String.eqb n "" then "Custom Strategy" else n
  | None => "Custom Strategy"
  end.

Section Run.
Variable Math_sqrt : num -> num.
Variable Number_toString : num -> string.
Variable js_eval : string -> result bool.

Definition executeStrategy (strategy : Strategy.t) : M Report :=
  reset ;;;
  set_data (match Strategy.data strategy with Some d => d | None => [] end) ;;;
  calculateIndicators Math_sqrt strategy ;;;
  executeTradingLogic Number_toString js_eval strategy ;;;
  this <~ get ;;
  let stats := calculateStatistics this in
  ret (mkReport (trades this) (buyMarkers this) (sellMarkers this) stats
                (name_or_default strategy)).
End Run.

(** ** Strategy library: validation *)

Definition required : list string :=
  ["name"%string; "indicators"%string; "conditions"%string].

(** Truthiness of a condition value: a function is truthy, a string is
    truthy unless empty. *)
Definition predicate_truthy (p : option Predicate) : bool :=
  match p with
  | None => false
  | Some (Callable _) => true
  | Some (Expression source) => negb (String.eqb source "")
  | Some (OtherValue b) => b
  end.

Definition is_some {A : Type} (o : option A) : bool :=
  match o with Some _ => true | None => false end.

(** Truthiness of [strategy[field]]. *)
Definition field_truthy (strategy : Strategy.t) (field : string) : bool :=
  if String.eqb field "name" then
    match Strategy.name strategy with
    | Some n => negb (String.eqb n "")
    | None => false
    end
  else if String.eqb field "indicators" then is_some (Strategy.indicators strategy)
  else if String.eqb field "conditions" then is_some (Strategy.conditions strategy)
  else false.

(** [validateStrategy] returns the descriptor as the call leaves it together
    with its outcome. *)
Definition validateStrategy (strategy : Strategy.t)
  : Strategy.t * result bool :=
  let missing := filter (fun field => negb (field_truthy strategy field)) required in
  if (0 <? List.length missing)%nat then
    (strategy,
     Throw (Error ("Missing required fields: " ++ String.concat ", " missing)))
  else
    match Strategy.conditions strategy with
    | None => (strategy, Throw TypeError)
    | Some c =>
        if negb (predicate_truthy (Strategy.buy c))
           || negb (predicate_truthy (Strategy.sell c))
        then
          (strategy,
           Throw (Error "Strategy must have both buy and sell conditions"))
        else (strategy, Ok true)
    end.

(** ** The formulas of the specification

    Definitions of this part follow the wording of the specification, to be
    compared with the functions above. *)

(** EMA over a series of closes: the seed is [close[0]], and
    [ema[i] = close[i]*k + ema[i-1]*(1-k)] with [k = 2/(period+1)]. *)
Fixpoint spec_EMA_from (k prev : num) (closes : list num) : list num :=
  match closes with
  | [] => []
  | c :: rest =>
      let e := (c * k + prev * (of_Z 1 - k))%num in
      e :: spec_EMA_from k e rest
  end.

Definition spec_EMA (period : Z) (closes : list num) : list num :=
  match closes with
  | [] => []
  | c0 :: rest => c0 :: spec_EMA_from (of_Z 2 / of_Z (period + 1))%num c0 rest
  end.

(** MACD: [macdLine = EMA(fast) - EMA(slow)], [signalLine = EMA(signal)] of
    the MACD line taken as a series of closes,
    [histogram = macdLine - signalLine]. *)
Definition spec_MACD (closes : list num) (fast slow sig : Z) : MACD :=
  let macdLine := sub_at (spec_EMA fast closes) (spec_EMA slow closes) in
  let signalLine := spec_EMA sig macdLine in
  mkMACD macdLine signalLine (sub_at macdLine signalLine).

(** Characters of an identifier. *)
Definition is_ident_char (c : ascii) : bool :=
  let n := nat_of_ascii c in
  ((48 <=? n) && (n <=? 57)) || ((65 <=? n) && (n <=? 90))
  || ((97 <=? n) && (n <=? 122)) || (n =? 95) || (n =? 36).

Section SpecSubstitution.
Variable Number_toString : num -> string.

(** A whole identifier is replaced when it is a key of the context. *)
Definition spec_resolve (context : obj jsval) (word : string) : string :=
  match obj_get context word with
  | Some v => to_string Number_toString v
  | None => word
  end.

(** Word-boundary-aware substitution: the text is cut into maximal runs of
    identifier characters and each run is resolved as a whole. [word] is
    the run read so far. *)
Fixpoint spec_substitute_from (context : obj jsval) (word s : string)
  : string :=
  match s with
  | EmptyString => spec_resolve context word
  | String c s' =>
      if is_ident_char c
      then spec_substitute_from context (word ++ String c EmptyString) s'
      else spec_resolve context word
           ++ String c (spec_substitute_from context EmptyString s')
  end.

Definition spec_substitute (context : obj jsval) (expression : string)
  : string :=
  spec_substitute_from context EmptyString expression.
End SpecSubstitution.

(** An indicator holds a defined value at [index]: the entry exists and is
    not the warm-up sentinel. *)
Definition spec_defined_at (series : list jsval) (index : nat) : bool :=
  match nth_error series index with
  | Some (JNum _) => true
  | _ => false
  end.

(** The [k]-th completed round trip is [(trades[2k], trades[2k+1])]. *)
Fixpoint round_trips (ts : list Trade) : list (Trade * Trade) :=
  match ts with
  | buy :: sell :: rest => (buy, sell) :: round_trips rest
  | _ => []
  end.

Definition trip_profit (p : Trade * Trade) : num :=
  (price (snd p) - price (fst p))%num.

Definition is_win (profit : num) : bool := gt profit zero.

Definition not_win (profit : num) : bool := negb (is_win profit).

(** A required field is missing from a descriptor: it is absent, or it is
    the empty name. *)
Definition spec_missing (strategy : Strategy.t) (field : string) : Prop :=
  (field = "name"%string
   /\ (Strategy.name strategy = None
       \/ Strategy.name strategy = Some EmptyString))
  \/ (field = "indicators"%string /\ Strategy.indicators strategy = None)
  \/ (field = "conditions"%string /\ Strategy.conditions strategy = None).

(** A side of the conditions has no entry: it is absent, or it is a falsy
    value (the empty text). *)
Definition spec_lacks (p : option Predicate) : Prop :=
  p = None \/ p = Some (Expression EmptyString) \/ p = Some (OtherValue false).

(** [hay.includes(needle)]. *)
Definition contains (needle hay : string) : bool :=
  is_some (String.index 0 needle hay).

(** The descriptor requests an EMA (at least one period) or a MACD. *)
Definition requests_EMA_or_MACD (strategy : Strategy.t) : bool :=
  match ind_field strategy Ind.ema with
  | Some (_ :: _) => true
  | _ => false
  end
  || is_some (ind_field strategy Ind.macd).

(** The statistics of an empty log. *)
Definition zeroed_stats : Stats :=
  mkStats 0 0 0 0 0 zero zero zero zero zero zero.

(** ** Shapes of a trade log *)

Definition action_eqb (a b : Action) : bool :=
  match a, b with
  | BUY, BUY | SELL, SELL => true
  | _, _ => false
  end.

(** No two consecutive trades share their action. *)
Fixpoint alternating (ts : list Trade) : bool :=
  match ts with
  | a :: (b :: _) as tl => negb (action_eqb (action a) (action b)) && alternating tl
  | _ => true
  end.

Definition first_is_BUY (ts : list Trade) : bool :=
  match ts with
  | [] => true
  | t :: _ => action_eqb (action t) BUY
  end.

(** The most recent BUY of a log. *)
Definition last_BUY (ts : list Trade) : option Trade :=
  find (is_action BUY) (rev ts).

(** ** Decidable equality, for closed evaluations *)

Class EqDec (A : Type) : Type :=
  eq_decide : forall x y : A, {x = y} + {x <> y}.

#[export] Instance EqDec_num : EqDec num := Num.eq_dec.
#[export] Instance EqDec_nat : EqDec nat := Nat.eq_dec.
#[export] Instance EqDec_Z : EqDec Z := Z.eq_dec.
#[export] Instance EqDec_string : EqDec string := string_dec.
#[export] Instance EqDec_bool : EqDec bool := bool_dec.

#[export] Instance EqDec_unit : EqDec unit.
Proof. intros [] []. left. reflexivity. Defined.

#[export] Instance EqDec_list (A : Type) `{EqDec A} : EqDec (list A).
Proof. intros x y. apply list_eq_dec. exact eq_decide. Defined.

#[export] Instance EqDec_option (A : Type) `{EqDec A} : EqDec (option A).
Proof. intros x y. decide equality; try apply eq_decide. Defined.

#[export] Instance EqDec_prod (A B : Type) `{EqDec A} `{EqDec B} : EqDec (A * B).
Proof. intros x y. decide equality; try apply eq_decide. Defined.

#[export] Instance EqDec_jsval : EqDec jsval.
Proof. intros x y. decide equality; try apply eq_decide. Defined.

#[export] Instance EqDec_error : EqDec error.
Proof. intros x y. decide equality; try apply eq_decide. Defined.

#[export] Instance EqDec_result (A : Type) `{EqDec A} : EqDec (result A).
Proof. intros x y. decide equality; try apply eq_decide. Defined.

#[export] Instance EqDec_Action : EqDec Action.
Proof. intros x y. decide equality. Defined.

#[export] Instance EqDec_Trade : EqDec Trade.
Proof. intros x y. decide equality; try apply eq_decide. Defined.

#[export] Instance EqDec_MACD : EqDec MACD.
Proof. intros x y. decide equality; try apply eq_decide. Defined.

#[export] Instance EqDec_Stats : EqDec Stats.
Proof. intros x y. decide equality; try apply eq_decide. Defined.

Definition decb {A : Type} `{EqDec A} (x y : A) : bool :=
  if eq_decide x y then true else false.

(** The array read [indicators[key][index]]; [None] is [undefined]. *)
Definition value_at (ind : obj (list jsval)) (index : nat) (key : string)
  : option jsval :=
  match obj_get ind key with
  | Some series => nth_error series index
  | None => None
  end.

Fixpoint last_opt {A : Type} (l : list A) : option A :=
  match l with
  | [] => None
  | a :: l' => match l' with [] => Some a | _ => last_opt l' end
  end.

(** The profit fields of the trade at position [j] of a log: a BUY has
    none; a SELL has [profit = price - buyPrice] and
    [profitPercent = profit / buyPrice * 100] for the most recent BUY
    before it. *)
Definition trade_profit_ok (log : list Trade) (j : nat) : Prop :=
  match nth_error log j with
  | None => True
  | Some t =>
      match action t with
      | BUY => profit t = None /\ profitPercent t = None
      | SELL =>
          exists b,
            last_BUY (firstn j log) = Some b
            /\ profit t = Some (price t - price b)%num
            /\ profitPercent t
               = Some ((price t - price b) / price b * of_Z 100)%num
      end
  end.

(** The indices of the bars still to visit grow, starting at [lo] or later. *)
Fixpoint increasing_from {A : Type} (lo : nat) (bars : list (nat * A)) : Prop :=
  match bars with
  | [] => True
  | (i, _) :: rest => (lo <= i)%nat /\ increasing_from (S i) rest
  end.

(** Two instance states with the same series, log and markers. *)
Definition same_run (this this' : Interp) : Prop :=
  data this' = data this /\ trades this' = trades this
  /\ buyMarkers this' = buyMarkers this /\ sellMarkers this' = sellMarkers this.

(** A computation that leaves series, log and markers alone. *)
Definition keeps {A : Type} (m : M A) : Prop :=
  forall this, same_run this (fst (m this)).

(** A computation that moreover never throws. *)
Definition runs_ok (m : M unit) : Prop :=
  forall this, exists this', m this = (this', Ok tt) /\ same_run this this'.

(** The well-formedness of a trade log: actions alternate from a BUY,
    no bar index occurs twice, profit fields are as [trade_profit_ok]
    says. *)
Record log_wf (log : list Trade) : Prop := mk_log_wf {
  wf_alternating : alternating log = true;
  wf_first : first_is_BUY log = true;
  wf_indices : NoDup (map index log);
  wf_profit : forall j, trade_profit_ok log j
}.

(** The link between the local variables of the simulation loop and the
    log: in a position the last trade is the BUY whose price is
    [entryPrice]; out of a position the log is empty or ends with a SELL. *)
Definition pos_ok (log : list Trade) (pos : Position) : Prop :=
  if inPosition pos then
    exists b, last_opt log = Some b /\ action b = BUY
              /\ price b = entryPrice pos /\ last_BUY log = Some b
  else
    match last_opt log with
    | None => True
    | Some t => action t = SELL
    end.

(** ** Further helpers for the statements about indicators *)

Definition is_null (v : jsval) : bool :=
  match v with JNull => true | JNum _ => false end.

(** A natural number as a rational. *)
Definition qn (n : nat) : Qc := Q2Qc (inject_Z (Z.of_nat n)).

(** The bar whose close is [candle.volume || 0]. *)
Definition volume_as_close (candle : Bar) : Bar :=
  mkBar (time candle) (open candle) (high candle) (low candle)
        (volume_or_0 candle) (volume candle).

(** The interpreter with another series. *)
Definition with_data (this : Interp) (d : list Bar) : Interp :=
  mkInterp (indicators this) d (trades this) (buyMarkers this)
           (sellMarkers this).

(** A finite number that is not negative. *)
Definition nonneg (x : num) : Prop := exists q : Qc, x = Fin q /\ (0 <= q)%Qc.

(** An RSI entry: [null], [NaN], or a finite number of [[0, 100]]. *)
Definition rsi_entry (v : jsval) : Prop :=
  v = JNull \/ v = JNum NaN
  \/ exists q : Qc,
       v = JNum (Fin q) /\ (0 <= q)%Qc /\ (q <= Q2Qc (inject_Z 100))%Qc.

(** Every stored indicator series has one entry per bar. *)
Definition aligned (this : Interp) : Prop :=
  Forall (fun kv : string * list jsval =>
            List.length (snd kv) = List.length (data this))
         (indicators this).

(** A computation that, run on the series [d], keeps the series and the
    alignment of the stored indicators. *)
Definition keeps_aligned {A : Type} (d : list Bar) (m : M A) : Prop :=
  forall this,
    data this = d ->
    aligned this ->
    aligned (fst (m this)) /\ data (fst (m this)) = d.

(** ** Further helpers for the statements about a run *)

(** The series a run works on: [strategy.data || []]. *)
Definition series_of (strategy : Strategy.t) : list Bar :=
  match Strategy.data strategy with
  | Some d => d
  | None => []
  end.

(** The marker [executeTradingLogic] pushes together with a trade. *)
Definition marker_of (t : Trade) : Marker :=
  match action t with
  | BUY => mkMarker (t_time t) belowBar "green" "arrowUp" "Buy" 1
  | SELL => mkMarker (t_time t) aboveBar "red" "arrowDown" "Sell" 1
  end.

(** A trade taken on a bar of the series [d] at or after index [start]: its
    index is within the series and its time and price are the time and the
    close of that bar. *)
Definition trade_at_bar (d : list Bar) (start : Z) (t : Trade) : Prop :=
  (start <= Z.of_nat (index t))%Z
  /\ exists bar,
       nth_error d (index t) = Some bar
       /\ price t = close bar /\ t_time t = time bar.

(** What a run keeps true of the interpreter state: the series is [d],
    every trade was taken on a bar, every trade has its marker. *)
Definition run_inv (d : list Bar) (start : Z) (this : Interp) : Prop :=
  data this = d
  /\ Forall (trade_at_bar d start) (trades this)
  /\ buyMarkers this = map marker_of (filter (is_action BUY) (trades this))
  /\ sellMarkers this = map marker_of (filter (is_action SELL) (trades this)).

(** A callable condition that does not throw on the bars the simulator
    visits; other kinds of condition never throw. *)
Definition callable_total (d : list Bar) (start : Z) (p : option Predicate)
  : Prop :=
  match p with
  | Some (Callable f) =>
      forall values i,
        (start <= Z.of_nat i)%Z -> (i < List.length d)%nat ->
        exists b, f values d i = Ok b
  | _ => True
  end.

(** The bars the loop of [executeTradingLogic] visits. *)
Definition visited (d : list Bar) (start : Z) (bars : list (nat * Bar)) : Prop :=
  Forall (fun ib : nat * Bar =>
            (start <= Z.of_nat (fst ib))%Z
            /\ nth_error d (fst ib) = Some (snd ib))
         bars.

(** ** Further helpers for the statements about statistics *)

(** The interpreter with another trade log. *)
Definition with_trades (this : Interp) (ts : list Trade) : Interp :=
  mkInterp (indicators this) (data this) ts (buyMarkers this)
           (sellMarkers this).

(** A pair of consecutive trades that [calculateStatistics] counts. *)
Definition counted_pair (p : Trade * Trade) : bool :=
  is_action BUY (fst p) && is_action SELL (snd p).

(** The profit fields of the SELL trades of a log, in order. *)
Definition sell_profits (ts : list Trade) : list num :=
  flat_map (fun t =>
              match action t, profit t with
              | SELL, Some p => [p]
              | _, _ => []
              end) ts.

(** The figures of a report that do not count trades. *)
Definition performance (st : Stats)
  : nat * nat * num * num * num * num * num * num :=
  (wins st, losses st, totalProfit st, totalProfitPercent st, maxDrawdown st,
   winRate st, avgWin st, avgLoss st).

(** ** Entry points: [interpret] and [parseStringStrategy] *)

(** A value produced by [JSON.parse], as far as [executeStrategy] tells
    values apart: [null]; a primitive (number, boolean, string), on which
    every property read gives [undefined]; an object or array, seen through
    the fields of a descriptor. *)
Inductive json : Type :=
| JsonNull
| JsonPrimitive
| JsonObject (strategy : Strategy.t).

(** The argument of [interpret] by its [typeof]: a string; an object;
    [null], whose [typeof] is ['object'] too; anything else. *)
Inductive js_input : Type :=
| InString (s : string)
| InObject (strategy : Strategy.t)
| InNull
| InOther.

(** [try { m } catch (error) { h }]. *)
Definition try_catch {A : Type} (m : M A) (h : error -> M A) : M A :=
  fun this =>
    match m this with
    | (this', Ok a) => (this', Ok a)
    | (this', Throw e) => h e this'
    end.

Section Interpret.
Variable Math_sqrt : num -> num.
Variable Number_toString : num -> string.
Variable js_eval : string -> result bool.
(** [JSON.parse] is taken from the platform. *)
Variable JSON_parse : string -> result json.

(** [executeStrategy] on a parsed value: on [null] the state is reset and
    the read of [strategy.data] throws; a primitive has no fields. *)
Definition executeStrategy_value (v : json) : M Report :=
  match v with
  | JsonObject strategy =>
      executeStrategy Math_sqrt Number_toString js_eval strategy
  | JsonPrimitive =>
      executeStrategy Math_sqrt Number_toString js_eval
        (Strategy.mk None None None None)
  | JsonNull => reset ;;; throw TypeError
  end.

Definition parseStringStrategy (strategyString : string) : M Report :=
  try_catch
    (strategy <~ lift (JSON_parse strategyString) ;;
     executeStrategy_value strategy)
    (fun _ => throw (Error "Invalid strategy string format")).

Definition interpret (strategy : js_input) : M Report :=
  match strategy with
  | InString s => parseStringStrategy s
  | InObject o => executeStrategy Math_sqrt Number_toString js_eval o
  | InNull => executeStrategy_value JsonNull
  | InOther => throw (Error "Invalid strategy format")
  end.
End Interpret.

(** ** The strategy library *)

(** [a <= b] and [a >= b] of JavaScript: false as soon as one side is NaN. *)
Definition le (x y : num) : bool :=
  negb (is_NaN x || is_NaN y) && negb (gt x y).

Definition ge (x y : num) : bool := le y x.

(** The property names every object inherits from [Object.prototype]. *)
Definition prototype_names : list string :=
  ["constructor"%string; "__proto__"%string; "__defineGetter__"%string;
   "__defineSetter__"%string; "__lookupGetter__"%string;
   "__lookupSetter__"%string; "hasOwnProperty"%string;
   "isPrototypeOf"%string; "propertyIsEnumerable"%string;
   "toLocaleString"%string; "toString"%string; "valueOf"%string].

Definition is_prototype_name (k : string) : bool :=
  existsb (String.eqb k) prototype_names.

(** The outcome of the property read [o[k]] on a plain object: an own
    value, a member of the prototype, or [undefined]. *)
Inductive lookup (V : Type) : Type :=
| Own (v : V)
| Inherited
| Undefined.

Arguments Own {V} v.
Arguments Inherited {V}.
Arguments Undefined {V}.

Definition js_get {V : Type} (o : obj V) (k : string) : lookup V :=
  match obj_get o k with
  | Some v => Own v
  | None => if is_prototype_name k then Inherited else Undefined
  end.

(** [delete o[k]]. *)
Definition obj_delete {V : Type} (o : obj V) (k : string) : obj V :=
  filter (fun kv => negb (String.eqb (fst kv) k)) o.

Module Library.

(** A strategy of the library: a descriptor with its description. *)
Record Entry : Type := mkEntry {
  description : option string;
  descriptor : Strategy.t
}.

(** [this.strategies]. Identifiers are taken not to be ["__proto__"] (an
    assignment to it sets the prototype) and not to be array indices (which
    [Object.keys] lists first). *)
Definition t : Type := obj Entry.

(** [values.key] as a number. *)
Definition val (values : obj jsval) (key : string) : num :=
  to_number (obj_get values key).

(** [data[index].close]. *)
Definition close_at (data : list Bar) (index : nat) : result num :=
  match nth_error data index with
  | Some bar => Ok (close bar)
  | None => Throw TypeError
  end.

(** [data[index-1].close]; [data[-1]] is [undefined]. *)
Definition close_before (data : list Bar) (index : nat) : result num :=
  match index with
  | O => Throw TypeError
  | S i => close_at data i
  end.

(** [a && b] and [a || b] on conditions that may throw: the right operand
    is evaluated only when the left one does not decide. *)
Definition and_then (a b : result bool) : result bool :=
  match a with
  | Ok true => b
  | Ok false => Ok false
  | Throw e => Throw e
  end.

Definition or_else (a b : result bool) : result bool :=
  match a with
  | Ok true => Ok true
  | Ok false => b
  | Throw e => Throw e
  end.

(** A condition that compares two indicator values. *)
Definition compare_values (cmp : num -> num -> bool) (k1 k2 : string)
  : obj jsval -> result bool :=
  fun values => Ok (cmp (val values k1) (val values k2)).

(** A condition that compares an indicator value with a constant. *)
Definition compare_const (cmp : num -> num -> bool) (k : string) (c : Z)
  : obj jsval -> result bool :=
  fun values => Ok (cmp (val values k) (of_Z c)).

(** A condition that compares the current close with a number. *)
Definition compare_close (cmp : num -> num -> bool) (data : list Bar)
    (index : nat) (x : num) : result bool :=
  c <- close_at data index ;; Ok (cmp c x).

(** A condition that compares the current close with the previous one. *)
Definition compare_previous (cmp : num -> num -> bool) (data : list Bar)
    (index : nat) : result bool :=
  c <- close_at data index ;;
  p <- close_before data index ;;
  Ok (cmp c p).

Definition entry (name description : string) (indicators : Ind.t)
    (buy sell : obj jsval -> list Bar -> nat -> result bool) : Entry :=
  mkEntry (Some description)
    (Strategy.mk (Some name) (Some indicators)
       (Some (Strategy.mkConditions (Some (Callable buy))
                                    (Some (Callable sell))))
       None).

Definition only_sma (periods : list Z) : Ind.t :=
  Ind.mk (Some periods) None None None None None.

Definition only_rsi (period : Z) : Ind.t :=
  Ind.mk None None (Some (Ind.mkRsi (Some period))) None None None.

Definition only_macd (fast slow sig : Z) : Ind.t :=
  Ind.mk None None None
    (Some (Ind.mkMacd (Some fast) (Some slow) (Some sig))) None None.

Definition only_bollinger (period : Z) (stdDev : Z) : Ind.t :=
  Ind.mk None None None None
    (Some (Ind.mkBollinger (Some period) (Some (of_Z stdDev)))) None.

(** The constants [0.95] and [1.05]. *)
Definition c_0_95 : num := Fin (Q2Qc (95 # 100)).
Definition c_1_05 : num := Fin (Q2Qc (105 # 100)).

(** The strategies the constructor installs, in the order of the source. *)
Definition builtin : t :=
  [ ("ma_crossover"%string,
     entry "Moving Average Crossover"
       "Buy when short MA crosses above long MA, sell when it crosses below"
       (only_sma [5; 20]%Z)
       (fun values _ _ => compare_values gt "sma5" "sma20" values)
       (fun values _ _ => compare_values lt "sma5" "sma20" values));
    ("ma_crossover_aggressive"%string,
     entry "Aggressive MA Crossover"
       "More sensitive moving average crossover with shorter periods"
       (only_sma [3; 8]%Z)
       (fun values _ _ => compare_values gt "sma3" "sma8" values)
       (fun values _ _ => compare_values lt "sma3" "sma8" values));
    ("rsi_oversold_overbought"%string,
     entry "RSI Oversold/Overbought"
       "Buy when RSI crosses above 30, sell when it crosses below 70"
       (only_rsi 14)
       (fun values _ _ => compare_const gt "rsi" 30 values)
       (fun values _ _ => compare_const lt "rsi" 70 values));
    ("rsi_aggressive"%string,
     entry "Aggressive RSI"
       "More frequent RSI signals with wider ranges"
       (only_rsi 14)
       (fun values _ _ => compare_const gt "rsi" 35 values)
       (fun values _ _ => compare_const lt "rsi" 65 values));
    ("macd_crossover"%string,
     entry "MACD Crossover"
       "Buy when MACD crosses above signal line, sell when below"
       (only_macd 12 26 9)
       (fun values _ _ => compare_values gt "macd" "macdSignal" values)
       (fun values _ _ => compare_values lt "macd" "macdSignal" values));
    ("macd_aggressive"%string,
     entry "Aggressive MACD"
       "Faster MACD with shorter periods for more signals"
       (only_macd 8 21 5)
       (fun values _ _ => compare_values gt "macd" "macdSignal" values)
       (fun values _ _ => compare_values lt "macd" "macdSignal" values));
    ("bollinger_bounce"%string,
     entry "Bollinger Bands Bounce"
       "Buy when price touches lower band, sell when it touches upper band"
       (only_bollinger 20 2)
       (fun values data index =>
          compare_close le data index (val values "bbLower"))
       (fun values data index =>
          compare_close ge data index (val values "bbUpper")));
    ("bollinger_squeeze"%string,
     entry "Bollinger Bands Squeeze"
       "Buy when price breaks above upper band, sell when below lower band"
       (only_bollinger 20 2)
       (fun values data index =>
          compare_close gt data index (val values "bbUpper"))
       (fun values data index =>
          compare_close lt data index (val values "bbLower")));
    ("rsi_ma_combined"%string,
     entry "RSI + MA Combined"
       "Combines RSI oversold/overbought with moving average trend"
       (Ind.mk (Some [20%Z]) None (Some (Ind.mkRsi (Some 14%Z))) None None None)
       (fun values data index =>
          and_then (compare_const lt "rsi" 30 values)
                   (compare_close gt data index (val values "sma20")))
       (fun values data index =>
          or_else (compare_const gt "rsi" 70 values)
                  (compare_close lt data index (val values "sma20"))));
    ("macd_rsi_combined"%string,
     entry "MACD + RSI Combined"
       "Combines MACD momentum with RSI confirmation"
       (Ind.mk None None (Some (Ind.mkRsi (Some 14%Z)))
               (Some (Ind.mkMacd (Some 12%Z) (Some 26%Z) (Some 9%Z))) None None)
       (fun values _ _ =>
          and_then (compare_values gt "macd" "macdSignal" values)
                   (compare_const lt "rsi" 40 values))
       (fun values _ _ =>
          and_then (compare_values lt "macd" "macdSignal" values)
                   (compare_const gt "rsi" 60 values)));
    ("high_frequency"%string,
     entry "High Frequency Strategy"
       "Very short-term strategy for maximum signals"
       (Ind.mk (Some [3; 8]%Z) None (Some (Ind.mkRsi (Some 7%Z))) None None None)
       (fun values _ _ =>
          or_else (compare_values gt "sma3" "sma8" values)
                  (compare_const lt "rsi" 25 values))
       (fun values _ _ =>
          or_else (compare_values lt "sma3" "sma8" values)
                  (compare_const gt "rsi" 75 values)));
    ("mean_reversion"%string,
     entry "Mean Reversion"
       "Buy when price is far below moving average, sell when far above"
       (only_sma [50%Z])
       (fun values data index =>
          compare_close lt data index (val values "sma50" * c_0_95)%num)
       (fun values data index =>
          compare_close gt data index (val values "sma50" * c_1_05)%num));
    ("momentum"%string,
     entry "Momentum Strategy"
       "Buy on strong upward momentum, sell on downward momentum"
       (Ind.mk None (Some [10; 20]%Z) None None None None)
       (fun values data index =>
          and_then (compare_values gt "ema10" "ema20" values)
                   (compare_previous gt data index))
       (fun values data index =>
          and_then (compare_values lt "ema10" "ema20" values)
                   (compare_previous lt data index)));
    ("simple_test"%string,
     entry "Simple Test Strategy"
       "Simple strategy that should generate both buy and sell signals"
       (only_sma [10%Z])
       (fun values data index =>
          compare_close gt data index (val values "sma10"))
       (fun values data index =>
          compare_close lt data index (val values "sma10"))) ].

(** [getAllStrategies]: every strategy with its identifier. *)
Definition getAllStrategies (lib : t) : list (string * lookup Entry) :=
  map (fun key => (key, js_get lib key)) (obj_keys lib).

Definition getStrategy (lib : t) (strategyId : string) : lookup Entry :=
  js_get lib strategyId.

Definition addStrategy (lib : t) (id : string) (strategy : Entry) : t :=
  obj_set lib id strategy.

Definition removeStrategy (lib : t) (strategyId : string) : t :=
  obj_delete lib strategyId.

(** The table of [getStrategiesByCategory]. *)
Definition categories : obj (list string) :=
  [ ("moving_average"%string,
     ["ma_crossover"%string; "ma_crossover_aggressive"%string]);
    ("rsi"%string, ["rsi_oversold_overbought"%string; "rsi_aggressive"%string]);
    ("macd"%string, ["macd_crossover"%string; "macd_aggressive"%string]);
    ("bollinger"%string,
     ["bollinger_bounce"%string; "bollinger_squeeze"%string]);
    ("combined"%string, ["rsi_ma_combined"%string; "macd_rsi_combined"%string]);
    ("high_frequency"%string, ["high_frequency"%string]);
    ("mean_reversion"%string, ["mean_reversion"%string]);
    ("momentum"%string, ["momentum"%string]) ].

(** [categories[category] || []]: the identifiers of a category, the empty
    list for an unknown one, a member of the prototype for its names. *)
Definition getStrategiesByCategory (category : string)
  : lookup (list string) :=
  match js_get categories category with
  | Own ids => Own ids
  | Inherited => Inherited
  | Undefined => Own []
  end.

(** The argument of [createCustomStrategy]. *)
Record Params : Type := mkParams {
  p_name : option string;
  p_description : option string;
  p_indicators : option Ind.t;
  buyCondition : option Predicate;
  sellCondition : option Predicate
}.

(** [s || d] on an optional string: [undefined] and [""] are falsy. *)
Definition string_or (s : option string) (d : string) : string :=
  match s with
  | Some x => if String.eqb x "" then d else x
  | None => d
  end.

(** [c || (() => false)]. *)
Definition condition_or_never (c : option Predicate) : Predicate :=
  if predicate_truthy c
  then match c with Some p => p | None => OtherValue false end
  else Callable (fun _ _ _ => Ok false).

Definition createCustomStrategy (params : Params) : result Entry :=
  let strategy :=
    mkEntry (Some (string_or (p_description params) "User-defined strategy"))
      (Strategy.mk (Some (string_or (p_name params) "Custom Strategy"))
         (Some (match p_indicators params with
                | Some ind => ind
                | None => Ind.mk None None None None None None
                end))
         (Some (Strategy.mkConditions
                  (Some (condition_or_never (buyCondition params)))
                  (Some (condition_or_never (sellCondition params)))))
         None) in
  _ <- snd (validateStrategy (descriptor strategy)) ;;
  Ok strategy.

(** The descriptor of an entry with a series to run it on. *)
Definition with_series (e : Entry) (d : list Bar) : Strategy.t :=
  Strategy.mk (Strategy.name (descriptor e))
              (Strategy.indicators (descriptor e))
              (Strategy.conditions (descriptor e)) (Some d).

End Library.

(** ** Further helpers for the statements about the library *)

Definition is_digit (c : ascii) : bool :=
  let n := nat_of_ascii c in (48 <=? n)%nat && (n <=? 57)%nat.

(** The text of an array index, which [Object.keys] lists before the other
    keys: ["0"], or digits that do not start with [0]. *)
Definition is_array_index (s : string) : bool :=
  match s with
  | EmptyString => false
  | String c rest =>
      if Ascii.eqb c "0"%char then String.eqb rest ""
      else is_digit c && forallb is_digit (list_ascii_of_string rest)
  end.

(** An identifier for which the association list stands for the object:
    not ["__proto__"] and not an array index. *)
Definition plain_id (id : string) : Prop :=
  id <> "__proto__"%string /\ is_array_index id = false.

(** A library whose identifiers are distinct and plain. *)
Definition plain_library (lib : Library.t) : Prop :=
  NoDup (obj_keys lib) /\ Forall plain_id (obj_keys lib).

Definition is_own {V : Type} (l : lookup V) : bool :=
  match l with Own _ => true | _ => false end.

(** ** Sample inputs *)

(** A bar whose four prices are the integer [c]. *)
Definition flat_bar (c : Z) : Bar :=
  mkBar 0 (of_Z c) (of_Z c) (of_Z c) (of_Z c) (of_Z 1000).

Definition bars_of (cs : list Z) : list Bar := map flat_bar cs.

(** A fresh interpreter whose series has the closes [cs]. *)
Definition with_closes (cs : list Z) : Interp :=
  mkInterp [] (bars_of cs) [] [] [].

Definition fresh : Interp := mkInterp [] [] [] [] [].

(** A rendering of numbers that agrees with [String(n)] on the integers and
    on the special values.  A fraction is written [p/q]; no evaluation below
    renders one. *)
Definition render (n : num) : string :=
  match n with
  | Fin q =>
      if (Zpos (Qden q) =? 1)%Z then string_of_Z (Qnum q)
      else string_of_Z (Qnum q) ++ "/" ++ string_of_Z (Zpos (Qden q))
  | PInf => "Infinity"
  | NInf => "-Infinity"
  | NaN => "NaN"
  end.

Definition always (b : bool) : Predicate :=
  Callable (fun _ _ _ => Ok b).

(** [{ indicators: { sma: [3] } }]. *)
Definition sma3_strategy : Strategy.t :=
  Strategy.mk (Some "sma3"%string)
    (Some (Ind.mk (Some [3%Z]) None None None None None))
    (Some (Strategy.mkConditions (Some (always true)) (Some (always false))))
    (Some (bars_of [1; 2; 3]%Z)).

(** [{ indicators: { volume: { period: 20 } } }] on two bars, buying as soon
    as possible and never selling. *)
Definition volume_only : Strategy.t :=
  Strategy.mk (Some "volume"%string)
    (Some (Ind.mk None None None None None (Some (Ind.mkVolume (Some 20%Z)))))
    (Some (Strategy.mkConditions (Some (always true)) (Some (always false))))
    (Some (bars_of [10; 11]%Z)).

(** [{ indicators: { macd: {} } }] with textual conditions. *)
Definition macd_text : Strategy.t :=
  Strategy.mk (Some "macd"%string)
    (Some (Ind.mk None None None (Some (Ind.mkMacd None None None)) None None))
    (Some (Strategy.mkConditions (Some (Expression "macd < macdSignal"))
                                 (Some (Expression "macd > macdSignal"))))
    (Some (bars_of [100]%Z)).

(** A log with one completed round trip and an open position:
    BUY at 100, SELL at 110, BUY at 95. *)
Definition sample_log : Interp :=
  mkInterp [] []
    [mkTrade 0 BUY (of_Z 100) 0 None None;
     mkTrade 1 SELL (of_Z 110) 1 (Some (of_Z 10)) (Some (of_Z 10));
     mkTrade 2 BUY (of_Z 95) 2 None None]
    [] [].

(** Stand-ins for the platform functions in closed runs that call neither. *)
Definition sample_sqrt (x : num) : num := x.

Definition sample_eval (_ : string) : result bool := Throw (Error "eval").

(** The MACD descriptor without a series. *)
Definition macd_no_data : Strategy.t :=
  Strategy.mk (Some "macd"%string)
    (Some (Ind.mk None None None (Some (Ind.mkMacd None None None)) None None))
    (Some (Strategy.mkConditions (Some (always true)) (Some (always false))))
    None.

(** Scenario A of the specification: 25 closes rising from 100 to 124,
    SMA(10), buy when [close > sma10], sell when [close < sma10]. *)
Definition close_vs_sma10 (cmp : num -> num -> bool) : Predicate :=
  Callable (fun values data index =>
    match nth_error data index with
    | Some bar => Ok (cmp (close bar) (to_number (obj_get values "sma10")))
    | None => Throw TypeError
    end).

Definition rising_sma10 : Strategy.t :=
  Strategy.mk (Some "rising"%string)
    (Some (Ind.mk (Some [10%Z]) None None None None None))
    (Some (Strategy.mkConditions (Some (close_vs_sma10 gt))
                                 (Some (close_vs_sma10 lt))))
    (Some (bars_of (map Z.of_nat (seq 100 25)))).

(** Scenario C: [BUY@100, SELL@110]. *)
Definition one_round_trip : Interp :=
  mkInterp [] []
    [mkTrade 0 BUY (of_Z 100) 0 None None;
     mkTrade 1 SELL (of_Z 110) 1 (Some (of_Z 10)) (Some (of_Z 10))]
    [] [].

(** * Properties *)

Local Open Scope nat_scope.

Lemma decb_true (A : Type) `{EqDec A} (x y : A) : decb x y = true -> x = y.
Proof. unfold decb. destruct (eq_decide x y); [trivial | discriminate]. Qed.

Lemma decb_false (A : Type) `{EqDec A} (x y : A) : decb x y = false -> x <> y.
Proof. unfold decb. destruct (eq_decide x y); [discriminate | trivial]. Qed.

(** Closed equations and disequations between computed values. *)
Ltac by_evaluation :=
  match goal with
  | |- ?x = ?y => apply (@decb_true _ _ x y); vm_compute; reflexivity
  | |- ?x <> ?y => apply (@decb_false _ _ x y); vm_compute; reflexivity
  end.

(** ** Exponential moving average and MACD *)

Lemma ema_fold_tail (k : num) (rest : list Bar) :
  forall (start : nat) (prev : num) (acc : list num),
    snd (fold_left (ema_step k)
           (combine (seq (S start) (List.length rest)) rest) (prev, acc))
    = acc ++ spec_EMA_from k prev (map close rest).
Proof.
  induction rest as [|b rest IH]; intros start prev acc; simpl.
  - now rewrite app_nil_r.
  - rewrite IH. now rewrite <- app_assoc.
Qed.

(** On a non-empty series [calculateEMA] computes the EMA of the closes of
    [this.data]. *)
Lemma calculateEMA_closes (this : Interp) (period : Z) :
  data this <> [] ->
  calculateEMA this period = Ok (spec_EMA period (map close (data this))).
Proof.
  unfold calculateEMA, indexed. destruct (data this) as [|first rest]; [congruence|].
  intros _. simpl. f_equal. now rewrite ema_fold_tail.
Qed.

Lemma calculateEMA_empty (this : Interp) (period : Z) :
  data this = [] -> calculateEMA this period = Throw TypeError.
Proof. unfold calculateEMA. now intros ->. Qed.

(** Whatever the periods, the signal line of [calculateMACD] is the EMA of
    the closing prices: the MACD line does not enter it. *)
Lemma calculateMACD_signal_of_prices (this : Interp) (fast slow sig : Z) (m : MACD) :
  calculateMACD this fast slow sig = Ok m ->
  signal m = spec_EMA sig (map close (data this)).
Proof.
  unfold calculateMACD. destruct (data this) as [|first rest] eqn:E.
  - rewrite calculateEMA_empty by assumption. discriminate.
  - assert (Hne : data this <> []) by (rewrite E; discriminate).
    rewrite !calculateEMA_closes by assumption. simpl.
    intros [= <-]. simpl. now rewrite E.
Qed.

(** C1. On the one-bar series with close 100 and the default periods
    12/26/9, [calculateMACD] returns the signal line [100] (the EMA of the
    closes) and the histogram [-100], where the MACD formula has signal [0]
    (the EMA of the MACD line [0]) and histogram [0]: the second argument of
    the call that computes the signal line is dropped. *)
Theorem calculateMACD_signal_ignores_macd_line :
  calculateMACD (with_closes [100%Z]) 12 26 9
  = Ok (mkMACD [zero] [of_Z 100] [of_Z (-100)])
  /\ spec_MACD [of_Z 100] 12 26 9 = mkMACD [zero] [zero] [zero]
  /\ calculateMACD (with_closes [100%Z]) 12 26 9
     <> Ok (spec_MACD [of_Z 100] 12 26 9).
Proof. split; [|split]; by_evaluation. Qed.

(** ** Substitution of context keys *)

(** C2. With the context keys [sma5 = 7] and [sma50 = 9] (in the order in
    which [calculateIndicators] creates them for [sma: [5, 50]]), the text
    [sma50 < 10] is rewritten to [70 < 10]: the replacement of [sma5] eats
    the first four characters of [sma50].  Substitution of whole identifiers
    gives [9 < 10].  The text handed to [eval] is the corrupted one. *)
Theorem evaluateExpression_corrupts_longer_identifier
    (js_eval : string -> result bool) :
  let values := [("sma5"%string, JNum (of_Z 7)); ("sma50"%string, JNum (of_Z 9))] in
  let context := expression_context values (flat_bar 100) 0 in
  substitute render context "sma50 < 10" = "70 < 10"%string
  /\ spec_substitute render context "sma50 < 10" = "9 < 10"%string
  /\ evaluateExpression render js_eval (with_closes [100%Z]) "sma50 < 10" values 0
     = match js_eval "70 < 10"%string with Ok b => Ok b | Throw _ => Ok false end.
Proof.
  intros values context. split; [|split].
  - by_evaluation.
  - by_evaluation.
  - assert (E : substitute render context "sma50 < 10" = "70 < 10"%string)
      by by_evaluation.
    unfold evaluateExpression.
    cbn [with_closes bars_of map data nth_error]. fold context.
    now rewrite E.
Qed.

(** The same defect on the keys of a single MACD request: [macd] is a
    prefix of [macdSignal], so the text [macd > macdSignal] never reaches
    [eval] as a comparison of the two values. *)
Lemma macd_key_corrupts_macdSignal (Math_sqrt : num -> num) :
  let this :=
    fst ((set_data (bars_of [100%Z]) ;;; calculateIndicators Math_sqrt macd_text)
           fresh) in
  obj_keys (indicators this)
  = ["macd"%string; "macdSignal"%string; "macdHistogram"%string]
  /\ substitute render
       (expression_context (getIndicatorValues this 0) (flat_bar 100) 0)
       "macd > macdSignal"
     = "0 > 0Signal"%string.
Proof. split; by_evaluation. Qed.

(** ** Per-index indicator values *)

Lemma obj_get_set (V : Type) (o : obj V) (k k' : string) (v : V) :
  obj_get (obj_set o k v) k'
  = if String.eqb k k' then Some v else obj_get o k'.
Proof.
  induction o as [|[k0 v0] o IH]; simpl.
  - reflexivity.
  - destruct (String.eqb k0 k) eqn:E0; simpl.
    + apply String.eqb_eq in E0. subst k0.
      destruct (String.eqb k k'); reflexivity.
    + destruct (String.eqb k0 k') eqn:E1.
      * apply String.eqb_eq in E1. subst k0. now rewrite String.eqb_sym, E0.
      * exact IH.
Qed.

Lemma obj_get_not_key (V : Type) (o : obj V) (k : string) :
  ~ In k (obj_keys o) -> obj_get o k = None.
Proof.
  induction o as [|[k0 v0] o IH]; simpl; [reflexivity|].
  intros H. destruct (String.eqb k0 k) eqn:E.
  - apply String.eqb_eq in E. tauto.
  - apply IH. tauto.
Qed.

Lemma getIndicatorValues_fold (ind : obj (list jsval)) (index : nat)
    (key : string) (keys : list string) :
  forall values : obj jsval,
    obj_get
      (fold_left
         (fun values key =>
            match obj_get ind key with
            | Some series =>
                match nth_error series index with
                | Some v => obj_set values key v
                | None => values
                end
            | None => values
            end) keys values) key
    = if in_dec string_dec key keys then
        match value_at ind index key with
        | Some v => Some v
        | None => obj_get values key
        end
      else obj_get values key.
Proof.
  induction keys as [|k keys IH]; intros values; [reflexivity|].
  cbn [fold_left]. rewrite IH. clear IH.
  destruct (in_dec string_dec key keys) as [Hin|Hin];
    destruct (in_dec string_dec key (k :: keys)) as [Hin'|Hin'];
    try (exfalso; apply Hin'; right; exact Hin).
  - destruct (value_at ind index key) eqn:Ev; [reflexivity|].
    destruct (obj_get ind k) as [series|] eqn:Ek; [|reflexivity].
    destruct (nth_error series index) eqn:En; [|reflexivity].
    rewrite obj_get_set. destruct (String.eqb k key) eqn:E; [|reflexivity].
    apply String.eqb_eq in E. subst k. unfold value_at in Ev.
    rewrite Ek, En in Ev. discriminate.
  - destruct Hin' as [->|Hin']; [|contradiction].
    unfold value_at. destruct (obj_get ind key) as [series|]; [|reflexivity].
    destruct (nth_error series index); [|reflexivity].
    now rewrite obj_get_set, String.eqb_refl.
  - assert (k <> key) by (intros ->; apply Hin'; now left).
    destruct (obj_get ind k) as [series|]; [|reflexivity].
    destruct (nth_error series index); [|reflexivity].
    rewrite obj_get_set. destruct (String.eqb k key) eqn:E; [|reflexivity].
    apply String.eqb_eq in E. contradiction.
Qed.

(** What [getIndicatorValues] holds for a key: the array entry at [index]
    whenever [index] is within the array, the sentinel [null] included. *)
Lemma getIndicatorValues_get (this : Interp) (index : nat) (key : string) :
  obj_get (getIndicatorValues this index) key
  = value_at (indicators this) index key.
Proof.
  unfold getIndicatorValues. rewrite getIndicatorValues_fold.
  destruct (in_dec string_dec key (obj_keys (indicators this))) as [Hin|Hin].
  - now destruct (value_at (indicators this) index key).
  - unfold value_at. now rewrite (obj_get_not_key _ _ Hin).
Qed.

(** C3. After [calculateIndicators] for [sma: [3]] on the closes 1, 2, 3 the
    series [sma3] is [[null, null, 2]]; it holds no defined value at index
    0, and yet [getIndicatorValues(0)] has the entry [sma3: null]: the test
    [!== undefined] lets the sentinel [null] through. *)
Theorem getIndicatorValues_passes_null (Math_sqrt : num -> num) :
  let this :=
    fst ((set_data (bars_of [1; 2; 3]%Z)
          ;;; calculateIndicators Math_sqrt sma3_strategy) fresh) in
  obj_get (indicators this) "sma3" = Some [JNull; JNull; JNum (of_Z 2)]
  /\ spec_defined_at [JNull; JNull; JNum (of_Z 2)] 0 = false
  /\ getIndicatorValues this 0 = [("sma3"%string, JNull)].
Proof. split; [|split]; by_evaluation. Qed.

(** ** Start index *)

(** The start index is the largest of the SMA periods, the EMA periods, the
    RSI period, the Bollinger period and 0. *)
Lemma getStartIndex_periods (strategy : Strategy.t) :
  getStartIndex strategy
  = max_with_0
      (match ind_field strategy Ind.sma with Some l => l | None => [] end
       ++ match ind_field strategy Ind.ema with Some l => l | None => [] end
       ++ match ind_field strategy Ind.rsi with
          | Some cfg => [or_default (Ind.period cfg) 14]
          | None => []
          end
       ++ match ind_field strategy Ind.bollinger with
          | Some cfg => [or_default (Ind.bb_period cfg) 20]
          | None => []
          end).
Proof.
  unfold getStartIndex, push_some.
  destruct (ind_field strategy Ind.sma), (ind_field strategy Ind.ema),
    (ind_field strategy Ind.rsi), (ind_field strategy Ind.bollinger);
    cbn [app]; rewrite ?app_nil_r, <- ?app_assoc; reflexivity.
Qed.

(** A MACD request and a volume request do not enter the start index. *)
Lemma getStartIndex_without_macd_volume (n : option string) (ind : Ind.t)
    (c : option Strategy.Conditions) (d : option (list Bar))
    (m : option Ind.MacdConfig) (v : option Ind.VolumeConfig) :
  getStartIndex
    (Strategy.mk n
       (Some (Ind.mk (Ind.sma ind) (Ind.ema ind) (Ind.rsi ind) m
                     (Ind.bollinger ind) v)) c d)
  = getStartIndex (Strategy.mk n (Some ind) c d).
Proof. reflexivity. Qed.

(** C4. For the descriptor that requests only a volume SMA of period 20, the
    start index is 0 although the volume SMA is still [null] there, and the
    simulator evaluates bar 0 for a trade (it buys on it). *)
Theorem getStartIndex_skips_volume_warmup
    (Math_sqrt : num -> num) (Number_toString : num -> string)
    (js_eval : string -> result bool) :
  getStartIndex volume_only = 0%Z
  /\ calculateVolumeSMA (with_closes [10; 11]%Z) 20 = [JNull; JNull]
  /\ trades (fst (executeStrategy Math_sqrt Number_toString js_eval
                    volume_only fresh))
     = [mkTrade 0 BUY (of_Z 10) 0 None None].
Proof. split; [|split]; by_evaluation. Qed.

(** ** RSI on a flat series *)

Lemma add_zero_zero : (zero + zero)%num = zero.
Proof. by_evaluation. Qed.

Lemma sub_self_fin (c : Qc) : (Fin c - Fin c)%num = zero.
Proof. unfold sub, neg, add. now rewrite Qcplus_opp_r. Qed.

Lemma of_Z_nonzero (z : Z) : z <> 0%Z -> Q2Qc (inject_Z z) <> 0%Qc.
Proof.
  intros Hz E. apply Hz.
  change 0%Qc with (Q2Qc 0) in E. apply Q2Qc_eq_iff in E.
  unfold Qeq in E. simpl in E. lia.
Qed.

Lemma zero_div_of_Z (z : Z) : z <> 0%Z -> (zero / of_Z z)%num = zero.
Proof.
  intros Hz. unfold zero, of_Z. unfold div.
  destruct (Qc_eq_dec (Q2Qc (inject_Z z)) 0) as [E|_].
  - now apply of_Z_nonzero in E.
  - f_equal. change (Q2Qc (inject_Z 0)) with 0%Qc. unfold Qcdiv.
    apply Qcmult_0_l.
Qed.

Lemma price_changes_flat (c : Qc) (l : list Bar) :
  (forall b, In b l -> close b = Fin c) ->
  forall x, In x (price_changes l) -> x = zero.
Proof.
  induction l as [|a [|b l] IH]; intros Hflat x; simpl; try tauto.
  intros [<-|Hx].
  - rewrite (Hflat a), (Hflat b) by (simpl; tauto). apply sub_self_fin.
  - apply IH; [|exact Hx]. intros b' Hb'. apply Hflat. now right.
Qed.

Lemma sum_by_zeros (l : list num) :
  (forall x, In x l -> x = zero) -> sum_by (fun x => x) l = zero.
Proof.
  unfold sum_by. induction l as [|x l IH]; intros Hz; [reflexivity|].
  cbn [fold_left]. rewrite (Hz x) by now left. rewrite add_zero_zero.
  apply IH. intros y Hy. apply Hz. now right.
Qed.

Lemma slice_incl (A : Type) (start stop : Z) (l : list A) (x : A) :
  In x (slice start stop l) -> In x l.
Proof.
  unfold slice. cbv zeta. intros H.
  match type of H with
  | In _ (firstn ?n (skipn ?s _)) =>
      rewrite <- (firstn_skipn s l); apply in_or_app; right;
      rewrite <- (firstn_skipn n (skipn s l)); apply in_or_app; now left
  end.
Qed.

Lemma rsi_avg_zeros (series : list num) (i : nat) (period : Z) :
  period <> 0%Z ->
  (forall x, In x series -> x = zero) ->
  rsi_avg series i period = zero.
Proof.
  intros Hp Hz. unfold rsi_avg. rewrite sum_by_zeros.
  - now apply zero_div_of_Z.
  - intros x Hx. apply Hz. eapply slice_incl. exact Hx.
Qed.

Lemma nth_error_map_seq (A : Type) (f : nat -> A) (n i : nat) :
  i < n -> nth_error (map f (seq 0 n)) i = Some (f i).
Proof.
  intros Hi. rewrite nth_error_map.
  rewrite (nth_error_nth' (seq 0 n) 0) by now rewrite length_seq.
  simpl. now rewrite seq_nth.
Qed.

(** On a series whose closes are all the same finite number, both averages
    are 0 at every index past the warm-up and the RSI there is
    [100 - 100/(1 + 0/0)], that is [NaN]. *)
Lemma calculateRSI_flat (this : Interp) (c : Qc) (period : Z) (i : nat) :
  (forall b, In b (data this) -> close b = Fin c) ->
  (0 < period)%Z ->
  (period <= Z.of_nat i)%Z ->
  i < List.length (data this) ->
  rsi_avg (map gain_of (price_changes (data this))) i period = zero
  /\ rsi_avg (map loss_of (price_changes (data this))) i period = zero
  /\ nth_error (calculateRSI this period) i = Some (JNum NaN).
Proof.
  intros Hflat Hp Hi Hlen.
  assert (Hg : rsi_avg (map gain_of (price_changes (data this))) i period = zero).
  { apply rsi_avg_zeros; [lia|]. intros x Hx. apply in_map_iff in Hx.
    destruct Hx as [y [<- Hy]].
    now rewrite (@price_changes_flat c _ Hflat y Hy). }
  assert (Hl : rsi_avg (map loss_of (price_changes (data this))) i period = zero).
  { apply rsi_avg_zeros; [lia|]. intros x Hx. apply in_map_iff in Hx.
    destruct Hx as [y [<- Hy]].
    now rewrite (@price_changes_flat c _ Hflat y Hy). }
  split; [exact Hg|]. split; [exact Hl|].
  unfold calculateRSI. rewrite nth_error_map_seq by exact Hlen.
  destruct (Z.of_nat i <? period)%Z eqn:E; [apply Z.ltb_lt in E; lia|].
  rewrite Hg, Hl. reflexivity.
Qed.

(** C5. On sixteen bars that all close at 50, RSI(14) has average gain 0
    and average loss 0 at the two indices past the warm-up, and its value
    there is [NaN], not 50. *)
Theorem calculateRSI_flat_series_is_NaN :
  let this := with_closes (repeat 50%Z 16) in
  let gains := map gain_of (price_changes (data this)) in
  let losses := map loss_of (price_changes (data this)) in
  rsi_avg gains 14 14 = zero /\ rsi_avg losses 14 14 = zero
  /\ rsi_avg gains 15 14 = zero /\ rsi_avg losses 15 14 = zero
  /\ calculateRSI this 14 = repeat JNull 14 ++ [JNum NaN; JNum NaN]
  /\ is_NaN (rsi_value zero zero) = true
  /\ rsi_value zero zero <> of_Z 50.
Proof. repeat (split; [by_evaluation|]). by_evaluation. Qed.

(** ** Shapes of a log under [push] *)

Lemma last_opt_snoc (A : Type) (l : list A) (t : A) : last_opt (l ++ [t]) = Some t.
Proof.
  induction l as [|a l IH]; [reflexivity|].
  cbn [app last_opt]. destruct (l ++ [t]) eqn:E.
  - now destruct l.
  - exact IH.
Qed.

Lemma alternating_snoc (l : list Trade) (t : Trade) :
  alternating (l ++ [t])
  = alternating l
    && match last_opt l with
       | None => true
       | Some a => negb (action_eqb (action a) (action t))
       end.
Proof.
  induction l as [|a l IH]; [reflexivity|].
  destruct l as [|b l].
  - simpl. now rewrite andb_true_r.
  - change (alternating ((a :: b :: l) ++ [t]))
      with (negb (action_eqb (action a) (action b))
            && alternating ((b :: l) ++ [t])).
    rewrite IH. change (last_opt (a :: b :: l)) with (last_opt (b :: l)).
    change (alternating (a :: b :: l))
      with (negb (action_eqb (action a) (action b)) && alternating (b :: l)).
    now rewrite andb_assoc.
Qed.

Lemma first_is_BUY_snoc (l : list Trade) (t : Trade) :
  first_is_BUY (l ++ [t])
  = match l with [] => action_eqb (action t) BUY | _ => first_is_BUY l end.
Proof. now destruct l. Qed.

Lemma last_BUY_snoc (l : list Trade) (t : Trade) :
  last_BUY (l ++ [t]) = if is_action BUY t then Some t else last_BUY l.
Proof. unfold last_BUY. now rewrite rev_unit. Qed.

Lemma NoDup_snoc (l : list nat) (i : nat) :
  NoDup l -> (forall x, In x l -> x < i) -> NoDup (l ++ [i]).
Proof.
  intros Hnd Hlt. apply NoDup_app; [exact Hnd| |].
  - constructor; [intros []|constructor].
  - intros x Hx [<-|[]]. specialize (Hlt _ Hx). lia.
Qed.

Lemma trade_profit_ok_snoc_old (l : list Trade) (t : Trade) (j : nat) :
  j < List.length l ->
  trade_profit_ok l j -> trade_profit_ok (l ++ [t]) j.
Proof.
  intros Hj. unfold trade_profit_ok.
  rewrite nth_error_app1 by exact Hj.
  rewrite firstn_app. replace (j - List.length l) with 0 by lia.
  now rewrite firstn_0, app_nil_r.
Qed.

Lemma log_wf_nil : log_wf [].
Proof.
  split; try reflexivity; [constructor|].
  intros j. unfold trade_profit_ok. now destruct j.
Qed.

Section Simulator.
Variable Math_sqrt : num -> num.
Variable Number_toString : num -> string.
Variable js_eval : string -> result bool.
Variable strategy : Strategy.t.

(** The three outcomes of one round of the loop. *)
Lemma trade_step_cases (pos : Position) (i : nat) (bar : Bar)
    (this this' : Interp) (r : result Position) :
  trade_step Number_toString js_eval strategy pos i bar this = (this', r) ->
  (this' = this /\ (r = Ok pos \/ exists e, r = Throw e))
  \/ (inPosition pos = false
      /\ trades this'
         = trades this ++ [mkTrade (time bar) BUY (close bar) i None None]
      /\ r = Ok (mkPosition true (close bar) (time bar)))
  \/ (inPosition pos = true
      /\ trades this'
         = trades this
           ++ [mkTrade (time bar) SELL (close bar) i
                 (Some (close bar - entryPrice pos)%num)
                 (Some ((close bar - entryPrice pos) / entryPrice pos
                        * of_Z 100)%num)]
      /\ r = Ok (mkPosition false (entryPrice pos) (entryTime pos))).
Proof.
  unfold trade_step, mbind, get, lift, ret, push_trade, push_buyMarker,
    push_sellMarker.
  destruct (inPosition pos) eqn:Epos; cbn [negb].
  - destruct (condition_of strategy Strategy.sell) as [sell|e];
      [|intros [= <- <-]; left; eauto].
    destruct (evaluateCondition Number_toString js_eval this sell
                (getIndicatorValues this i) i) as [[|]|e];
      intros [= <- <-]; [right; right | left | left]; eauto.
  - destruct (condition_of strategy Strategy.buy) as [buy|e];
      [|intros [= <- <-]; left; eauto].
    destruct (evaluateCondition Number_toString js_eval this buy
                (getIndicatorValues this i) i) as [[|]|e];
      intros [= <- <-]; [right; left | left | left]; eauto.
Qed.

Lemma push_BUY_wf (log : list Trade) (pos : Position) (lo i : nat) (bar : Bar) :
  log_wf log -> pos_ok log pos -> inPosition pos = false ->
  (forall t, In t log -> index t < lo) -> lo <= i ->
  let t := mkTrade (time bar) BUY (close bar) i None None in
  log_wf (log ++ [t])
  /\ pos_ok (log ++ [t]) (mkPosition true (close bar) (time bar)).
Proof.
  intros [Halt Hfirst Hidx Hprofit] Hpos Ein Hlo Hi t. split.
  - split.
    + rewrite alternating_snoc, Halt. unfold pos_ok in Hpos. rewrite Ein in Hpos.
      destruct (last_opt log) as [a|]; [|reflexivity].
      simpl. now rewrite Hpos.
    + rewrite first_is_BUY_snoc. now destruct log.
    + rewrite map_app. apply NoDup_snoc; [exact Hidx|].
      intros x Hx. apply in_map_iff in Hx. destruct Hx as [t' [<- Ht']].
      specialize (Hlo _ Ht'). simpl. lia.
    + intros j. destruct (Nat.lt_ge_cases j (List.length log)) as [Hj|Hj].
      * now apply trade_profit_ok_snoc_old.
      * unfold trade_profit_ok.
        destruct (Nat.eq_dec j (List.length log)) as [->|Hne].
        -- rewrite nth_error_app2, Nat.sub_diag by lia. simpl. tauto.
        -- rewrite nth_error_app2 by lia.
           destruct (j - List.length log) as [|k] eqn:Ek; [lia|].
           now destruct k.
  - unfold pos_ok. simpl. exists t. rewrite last_opt_snoc, last_BUY_snoc.
    simpl. tauto.
Qed.

Lemma push_SELL_wf (log : list Trade) (pos : Position) (lo i : nat) (bar : Bar) :
  log_wf log -> pos_ok log pos -> inPosition pos = true ->
  (forall t, In t log -> index t < lo) -> lo <= i ->
  let t := mkTrade (time bar) SELL (close bar) i
             (Some (close bar - entryPrice pos)%num)
             (Some ((close bar - entryPrice pos) / entryPrice pos
                    * of_Z 100)%num) in
  log_wf (log ++ [t])
  /\ pos_ok (log ++ [t]) (mkPosition false (entryPrice pos) (entryTime pos)).
Proof.
  intros [Halt Hfirst Hidx Hprofit] Hpos Ein Hlo Hi t.
  unfold pos_ok in Hpos. rewrite Ein in Hpos.
  destruct Hpos as [b [Hlast [Hb [Hprice HlastBUY]]]]. split.
  - split.
    + rewrite alternating_snoc, Halt, Hlast. simpl. now rewrite Hb.
    + rewrite first_is_BUY_snoc. destruct log; [discriminate|exact Hfirst].
    + rewrite map_app. apply NoDup_snoc; [exact Hidx|].
      intros x Hx. apply in_map_iff in Hx. destruct Hx as [t' [<- Ht']].
      specialize (Hlo _ Ht'). simpl. lia.
    + intros j. destruct (Nat.lt_ge_cases j (List.length log)) as [Hj|Hj].
      * now apply trade_profit_ok_snoc_old.
      * unfold trade_profit_ok.
        destruct (Nat.eq_dec j (List.length log)) as [->|Hne].
        -- rewrite nth_error_app2, Nat.sub_diag by lia. simpl.
           exists b. rewrite firstn_app, Nat.sub_diag, firstn_all, firstn_0,
             app_nil_r, Hprice. tauto.
        -- rewrite nth_error_app2 by lia.
           destruct (j - List.length log) as [|k] eqn:Ek; [lia|].
           now destruct k.
  - unfold pos_ok. simpl. now rewrite last_opt_snoc.
Qed.

Lemma below_snoc (log : list Trade) (t : Trade) (lo i : nat) :
  (forall t', In t' log -> index t' < lo) -> lo <= i -> index t = i ->
  forall t', In t' (log ++ [t]) -> index t' < S i.
Proof.
  intros Hlo Hi Ht t' Hin. apply in_app_or in Hin.
  destruct Hin as [Hin|[<-|[]]]; [specialize (Hlo _ Hin)|]; lia.
Qed.

(** The loop keeps the log well formed, whether it runs to the end or a
    condition throws on the way. *)
Lemma trade_loop_wf (bars : list (nat * Bar)) :
  forall (lo : nat) (pos : Position) (this this' : Interp)
         (r : result Position),
    increasing_from lo bars ->
    log_wf (trades this) -> pos_ok (trades this) pos ->
    (forall t, In t (trades this) -> index t < lo) ->
    trade_loop Number_toString js_eval strategy pos bars this = (this', r) ->
    log_wf (trades this').
Proof.
  induction bars as [|[i bar] rest IH];
    intros lo pos this this' r Hinc Hwf Hpos Hlo.
  - simpl. unfold ret. now intros [= <- _].
  - destruct Hinc as [Hi Hinc]. cbn [trade_loop]. unfold mbind at 1.
    destruct (trade_step Number_toString js_eval strategy pos i bar this)
      as [this1 r1] eqn:Estep.
    apply trade_step_cases in Estep.
    destruct Estep as [[-> Hr]|[[Ein [Ht ->]]|[Ein [Ht ->]]]].
    + destruct Hr as [->|[e ->]].
      * apply (IH (S i)); auto. intros t Ht. specialize (Hlo _ Ht). lia.
      * now intros [= <- _].
    + destruct (@push_BUY_wf (trades this) pos lo i bar Hwf Hpos Ein Hlo Hi)
        as [Hwf' Hpos'].
      apply (IH (S i)); rewrite ?Ht; auto.
      now apply below_snoc with (lo := lo).
    + destruct (@push_SELL_wf (trades this) pos lo i bar Hwf Hpos Ein Hlo Hi)
        as [Hwf' Hpos'].
      apply (IH (S i)); rewrite ?Ht; auto.
      now apply below_snoc with (lo := lo).
Qed.
End Simulator.

(** ** Computations that leave the log alone *)

Lemma same_run_refl (this : Interp) : same_run this this.
Proof. repeat split. Qed.

Lemma same_run_trans (a b c : Interp) :
  same_run a b -> same_run b c -> same_run a c.
Proof.
  unfold same_run. intros [? [? [? ?]]] [? [? [? ?]]].
  repeat split; congruence.
Qed.

Lemma keeps_ret (A : Type) (a : A) : keeps (ret a).
Proof. intros this. apply same_run_refl. Qed.

Lemma keeps_lift (A : Type) (r : result A) : keeps (lift r).
Proof. intros this. apply same_run_refl. Qed.

Lemma keeps_get : keeps get.
Proof. intros this. apply same_run_refl. Qed.

Lemma keeps_set_indicator (key : string) (series : list jsval) :
  keeps (set_indicator key series).
Proof. intros this. repeat split. Qed.

Lemma keeps_clear_indicators : keeps clear_indicators.
Proof. intros this. repeat split. Qed.

Lemma keeps_mbind (A B : Type) (m : M A) (k : A -> M B) :
  keeps m -> (forall a, keeps (k a)) -> keeps (mbind m k).
Proof.
  intros Hm Hk this. unfold mbind. specialize (Hm this).
  destruct (m this) as [this1 [a|e]]; simpl in *; [|exact Hm].
  eapply same_run_trans; [exact Hm|apply Hk].
Qed.

Lemma keeps_forEach (A : Type) (f : A -> M unit) (l : list A) :
  (forall x, keeps (f x)) -> keeps (forEach f l).
Proof.
  intros Hf. induction l as [|x l IH]; simpl.
  - apply keeps_ret.
  - apply keeps_mbind; auto.
Qed.

Lemma keeps_when_some (A : Type) (o : option A) (body : A -> M unit) :
  (forall a, keeps (body a)) -> keeps (when_some o body).
Proof. intros Hb. destruct o; simpl; [apply Hb|apply keeps_ret]. Qed.

Create HintDb keeps.
#[export] Hint Resolve keeps_ret keeps_lift keeps_get keeps_set_indicator
  keeps_clear_indicators keeps_mbind keeps_forEach keeps_when_some : keeps.

(** Walks a computation built from [mbind], [when_some] and [forEach]. *)
Ltac keeps_tac :=
  cbv beta zeta;
  lazymatch goal with
  | |- keeps (mbind _ _) => apply keeps_mbind; [keeps_tac | intro; keeps_tac]
  | |- keeps (when_some _ _) => apply keeps_when_some; intro; keeps_tac
  | |- keeps (forEach _ _) => apply keeps_forEach; intro; keeps_tac
  | |- keeps _ => auto with keeps
  end.

Lemma calculateIndicators_keeps (Math_sqrt : num -> num) (strategy : Strategy.t) :
  keeps (calculateIndicators Math_sqrt strategy).
Proof.
  unfold calculateIndicators, sma_indicators, ema_indicators, rsi_indicator,
    macd_indicators, bollinger_indicators, volume_indicator.
  keeps_tac.
Qed.

(** ** The log of a run *)

Lemma increasing_from_weaken (A : Type) (lo lo' : nat) (bars : list (nat * A)) :
  lo' <= lo -> increasing_from lo bars -> increasing_from lo' bars.
Proof. destruct bars as [|[i b] rest]; simpl; [tauto|]. intros ? [? ?]. split; [lia|auto]. Qed.

Lemma increasing_from_combine (A : Type) (l : list A) :
  forall lo, increasing_from lo (combine (seq lo (List.length l)) l).
Proof. induction l as [|a l IH]; intros lo; simpl; auto. Qed.

Lemma increasing_from_skipn (A : Type) (n : nat) :
  forall (lo : nat) (bars : list (nat * A)),
    increasing_from lo bars -> increasing_from lo (skipn n bars).
Proof.
  induction n as [|n IH]; intros lo bars H; [exact H|].
  destruct bars as [|[i b] rest]; [exact I|].
  simpl. destruct H as [Hi H]. apply IH.
  apply increasing_from_weaken with (lo := S i); [lia|exact H].
Qed.

Section Run.
Variable Math_sqrt : num -> num.
Variable Number_toString : num -> string.
Variable js_eval : string -> result bool.
Variable strategy : Strategy.t.

Lemma executeTradingLogic_wf (this : Interp) :
  trades this = [] ->
  log_wf (trades (fst (executeTradingLogic Number_toString js_eval strategy
                         this))).
Proof.
  intros Hnil. unfold executeTradingLogic, mbind at 1 2, get.
  destruct (trade_loop Number_toString js_eval strategy
              (mkPosition false zero 0)
              (skipn (Z.to_nat (getStartIndex strategy)) (indexed (data this)))
              this) as [this' r] eqn:Eloop.
  assert (Hwf : log_wf (trades this')).
  { eapply trade_loop_wf with (lo := 0); [| | | |exact Eloop].
    - apply increasing_from_skipn. apply increasing_from_combine.
    - rewrite Hnil. apply log_wf_nil.
    - rewrite Hnil. exact I.
    - rewrite Hnil. intros t []. }
  destruct r; exact Hwf.
Qed.

(** The log a run leaves in the interpreter is well formed, and it is the
    log of the report when the run returns one. *)
Lemma executeStrategy_log (this0 : Interp) :
  let run := executeStrategy Math_sqrt Number_toString js_eval strategy this0 in
  log_wf (trades (fst run))
  /\ match snd run with
     | Ok report => r_trades report = trades (fst run)
     | Throw _ => True
     end.
Proof.
  intros run. subst run.
  destruct (executeStrategy Math_sqrt Number_toString js_eval strategy this0)
    as [thisF r] eqn:E.
  cbn [fst snd]. unfold executeStrategy, mbind, reset, set_data, get, ret in E.
  match type of E with
  | context [calculateIndicators ?s ?st ?x] =>
      pose proof (calculateIndicators_keeps s st x) as Hk;
      destruct (calculateIndicators s st x) as [this2 [[]|e]]
  end; cbn [fst] in Hk; destruct Hk as [_ [Htr _]]; cbn [trades] in Htr.
  - pose proof (executeTradingLogic_wf this2 Htr) as Hwf.
    destruct (executeTradingLogic Number_toString js_eval strategy this2)
      as [this3 [[]|e]]; cbn [fst] in Hwf;
      injection E as <- <-; split; auto.
  - injection E as <- <-. rewrite Htr. split; [apply log_wf_nil|exact I].
Qed.

(** C6. In the trade log of a run no two consecutive trades share their
    action, the first trade is a BUY, and no bar index carries two trades;
    the log of the report is that log. *)
Theorem executeStrategy_trades_alternate (this0 : Interp) :
  let run := executeStrategy Math_sqrt Number_toString js_eval strategy this0 in
  let log := trades (fst run) in
  alternating log = true /\ first_is_BUY log = true
  /\ NoDup (map index log)
  /\ match snd run with
     | Ok report => r_trades report = log
     | Throw _ => True
     end.
Proof.
  intros run log. destruct (executeStrategy_log this0) as [[Ha Hf Hi _] Hr].
  repeat split; assumption.
Qed.

(** C7. In the trade log of a run every SELL carries
    [profit = price - buyPrice] and [profitPercent = profit / buyPrice *
    100] for the most recent BUY before it, and every BUY carries neither
    field. *)
Theorem executeStrategy_sell_profit (this0 : Interp) (j : nat) :
  let log :=
    trades (fst (executeStrategy Math_sqrt Number_toString js_eval strategy
                   this0)) in
  match nth_error log j with
  | None => True
  | Some t =>
      match action t with
      | BUY => profit t = None /\ profitPercent t = None
      | SELL =>
          exists b,
            last_BUY (firstn j log) = Some b
            /\ profit t = Some (price t - price b)%num
            /\ profitPercent t
               = Some ((price t - price b) / price b * of_Z 100)%num
      end
  end.
Proof.
  intros log. destruct (executeStrategy_log this0) as [[_ _ _ Hp] _].
  exact (Hp j).
Qed.
End Run.

(** ** Statistics *)

Lemma pairs_ind (A : Type) (P : list A -> Prop) :
  P [] -> (forall a, P [a]) -> (forall a b l, P l -> P (a :: b :: l)) ->
  forall l, P l.
Proof.
  intros H0 H1 H2 l.
  enough (H : P l /\ forall a, P (a :: l)) by apply H.
  induction l as [|b l [IHl IHcons]]; split; auto.
Qed.

Lemma length_round_trips (ts : list Trade) :
  List.length (round_trips ts) = List.length ts / 2.
Proof.
  induction ts as [| a | a b l IH] using pairs_ind; try reflexivity.
  cbn [round_trips List.length]. rewrite IH.
  change (S (S (List.length l))) with (2 + List.length l).
  replace (2 + List.length l) with (List.length l + 1 * 2) by lia.
  rewrite Nat.div_add by discriminate. lia.
Qed.

(** In a log that alternates from a BUY every round trip is a BUY followed
    by a SELL. *)
Lemma alternating_round_trips (ts : list Trade) :
  alternating ts = true -> first_is_BUY ts = true ->
  Forall (fun p => action (fst p) = BUY /\ action (snd p) = SELL)
         (round_trips ts).
Proof.
  induction ts as [| a | a b l IH] using pairs_ind; intros Halt Hfirst;
    try constructor.
  - cbn in Halt, Hfirst |- *. apply andb_true_iff in Halt.
    destruct Halt as [Hab _]. destruct (action a), (action b); auto; discriminate.
  - apply IH.
    + cbn in Halt. apply andb_true_iff in Halt. destruct Halt as [_ Halt].
      destruct l; [reflexivity|]. apply andb_true_iff in Halt. apply Halt.
    + cbn in Halt, Hfirst. apply andb_true_iff in Halt.
      destruct Halt as [Hab Halt]. destruct l as [|c l]; [reflexivity|].
      apply andb_true_iff in Halt. destruct Halt as [Hbc _]. cbn.
      destruct (action a), (action b), (action c); auto; discriminate.
Qed.

(** What one round of the loop adds to the counters and to the two sums. *)
Lemma stats_pair_acc (a b : Trade) (st : Stats) (peak : num) :
  action a = BUY -> action b = SELL ->
  let st' := fst (stats_pair a b (st, peak)) in
  let p := trip_profit (a, b) in
  wins st' = wins st + (if is_win p then 1 else 0)
  /\ losses st' = losses st + (if is_win p then 0 else 1)
  /\ avgWin st' = (if is_win p then (avgWin st + p)%num else avgWin st)
  /\ avgLoss st' = (if is_win p then avgLoss st else (avgLoss st + abs p)%num).
Proof.
  intros Ha Hb. unfold stats_pair, is_action, trip_profit, is_win.
  rewrite Ha, Hb. cbn [andb fst snd].
  destruct (gt (price b - price a) zero); cbn [fst wins losses avgWin avgLoss];
    repeat split; lia.
Qed.

(** What the loop of [calculateStatistics] adds to the counters and to the
    two sums, on a log whose round trips are BUY-SELL pairs. *)
Lemma stats_loop_acc (ts : list Trade) :
  Forall (fun p => action (fst p) = BUY /\ action (snd p) = SELL)
         (round_trips ts) ->
  forall (st : Stats) (peak : num),
    let st' := fst (stats_loop ts (st, peak)) in
    let profits := map trip_profit (round_trips ts) in
    wins st' = wins st + List.length (filter is_win profits)
    /\ losses st' = losses st + List.length (filter not_win profits)
    /\ avgWin st'
       = fold_left (fun acc x => (acc + x)%num) (filter is_win profits) (avgWin st)
    /\ avgLoss st'
       = fold_left (fun acc x => (acc + abs x)%num) (filter not_win profits)
           (avgLoss st).
Proof.
  induction ts as [| a | a b l IH] using pairs_ind; intros Hpairs st peak;
    try (cbn; repeat split; lia).
  cbn [round_trips] in Hpairs. inversion Hpairs as [|p ps [Ha Hb] Hrest]; subst.
  cbn [fst snd] in Ha, Hb.
  destruct (@stats_pair_acc a b st peak Ha Hb) as [Hw1 [Hl1 [Haw1 Hal1]]].
  cbn [stats_loop round_trips map filter].
  destruct (stats_pair a b (st, peak)) as [st1 peak1]. cbn [fst] in *.
  destruct (IH Hrest st1 peak1) as [Hw [Hl [Haw Hal]]].
  rewrite Hw, Hl, Haw, Hal, Hw1, Hl1, Haw1, Hal1.
  change (not_win (trip_profit (a, b)))
    with (negb (is_win (trip_profit (a, b)))).
  destruct (is_win (trip_profit (a, b))); cbn [negb List.length fold_left];
    repeat split; lia.
Qed.

Lemma length_filter_split (A : Type) (f : A -> bool) (l : list A) :
  List.length (filter f l) + List.length (filter (fun x => negb (f x)) l)
  = List.length l.
Proof.
  induction l as [|x l IH]; [reflexivity|].
  simpl. destruct (f x); simpl; lia.
Qed.

Lemma Q_rate_range (w n : Z) :
  (0 <= w)%Z -> (w <= n)%Z -> (0 < n)%Z ->
  (0 <= inject_Z w / inject_Z n * inject_Z 100
   /\ inject_Z w / inject_Z n * inject_Z 100 <= inject_Z 100)%Q.
Proof.
  intros Hw Hwn Hn.
  assert (Hn' : (0 < inject_Z n)%Q) by (rewrite <- (Zlt_Qlt 0); exact Hn).
  assert (H0 : (0 <= inject_Z w / inject_Z n)%Q).
  { apply Qle_shift_div_l; [exact Hn'|]. rewrite Qmult_0_l.
    rewrite <- (Zle_Qle 0). exact Hw. }
  assert (H1 : (inject_Z w / inject_Z n <= 1)%Q).
  { apply Qle_shift_div_r; [exact Hn'|]. rewrite Qmult_1_l.
    rewrite <- Zle_Qle. exact Hwn. }
  split.
  - apply Qmult_le_0_compat; [exact H0|]. now compute.
  - rewrite <- (Qmult_1_l (inject_Z 100)) at 2.
    apply Qmult_le_compat_r; [exact H1|]. now compute.
Qed.

(** [w / n * 100] is a finite number of [[0, 100]] when [w <= n] and
    [0 < n]. *)
Lemma rate_range (w n : nat) :
  w <= n -> 0 < n ->
  exists q : Qc,
    (of_nat w / of_nat n * of_Z 100)%num = Fin q
    /\ (0 <= q)%Qc /\ (q <= Q2Qc (inject_Z 100))%Qc.
Proof.
  intros Hwn Hn.
  exists (Q2Qc (inject_Z (Z.of_nat w)) / Q2Qc (inject_Z (Z.of_nat n))
          * Q2Qc (inject_Z 100))%Qc.
  split.
  - unfold of_nat, of_Z, div.
    destruct (Qc_eq_dec (Q2Qc (inject_Z (Z.of_nat n))) 0) as [E|_].
    + apply of_Z_nonzero in E; [contradiction|lia].
    + reflexivity.
  - destruct (@Q_rate_range (Z.of_nat w) (Z.of_nat n)) as [H0 H1]; try lia.
    unfold Qcle, Qcdiv, Qcmult, Qcinv, Q2Qc. cbn [this].
    rewrite !Qred_correct. split; [exact H0|exact H1].
Qed.

(** C8. On a trade log that alternates from a BUY, [calculateStatistics]
    counts as wins the round trips with a positive profit and as losses the
    others, so that [wins + losses = floor(trades.length / 2)]; [winRate] is
    [wins / (wins + losses) * 100], or 0 without a completed pair, and is a
    finite number of [[0, 100]]; [avgWin] is the mean of the winning profits
    and [avgLoss] the mean of the absolute losing profits, each 0 when its
    count is 0. *)
Theorem calculateStatistics_consistent (this : Interp) :
  alternating (trades this) = true ->
  first_is_BUY (trades this) = true ->
  let st := calculateStatistics this in
  let profits := map trip_profit (round_trips (trades this)) in
  let won := filter is_win profits in
  let lost := filter not_win profits in
  wins st = List.length won
  /\ losses st = List.length lost
  /\ wins st + losses st = List.length (trades this) / 2
  /\ winRate st
     = (if wins st + losses st =? 0 then zero
        else (of_nat (wins st) / of_nat (wins st + losses st) * of_Z 100)%num)
  /\ (exists q : Qc,
        winRate st = Fin q /\ (0 <= q)%Qc /\ (q <= Q2Qc (inject_Z 100))%Qc)
  /\ avgWin st
     = (if wins st =? 0 then zero
        else (sum_by (fun x => x) won / of_nat (wins st))%num)
  /\ avgLoss st
     = (if losses st =? 0 then zero
        else (sum_by abs lost / of_nat (losses st))%num).
Proof.
  intros Halt Hfirst st profits won lost. subst st.
  pose proof (alternating_round_trips _ Halt Hfirst) as Hp.
  unfold calculateStatistics.
  match goal with
  | |- context [stats_loop (trades this) (?s, zero)] =>
      pose proof (@stats_loop_acc (trades this) Hp s zero) as H;
      destruct (stats_loop (trades this) (s, zero)) as [st1 pk]
  end.
  cbn [fst wins losses avgWin avgLoss] in H. fold profits won lost in H.
  destruct H as [Hw [Hl [Haw Hal]]]. cbn [Nat.add] in Hw, Hl.
  cbn [wins losses winRate avgWin avgLoss].
  assert (Hsum : wins st1 + losses st1 = List.length (trades this) / 2).
  { rewrite Hw, Hl. unfold won, lost, not_win.
    rewrite length_filter_split. unfold profits.
    now rewrite length_map, length_round_trips. }
  split; [exact Hw|]. split; [exact Hl|]. split; [exact Hsum|].
  split; [|split; [|split]].
  - destruct (wins st1 + losses st1) as [|k]; reflexivity.
  - destruct (wins st1 + losses st1) as [|k] eqn:Ek.
    + exists 0%Qc. cbn. repeat split; now compute.
    + cbn [Nat.ltb Nat.leb]. apply rate_range; lia.
  - rewrite Haw. destruct (wins st1); reflexivity.
  - rewrite Hal. destruct (losses st1); reflexivity.
Qed.

Lemma calculateStatistics_consistent_witness :
  alternating (trades sample_log) = true
  /\ first_is_BUY (trades sample_log) = true
  /\ wins (calculateStatistics sample_log)
     + losses (calculateStatistics sample_log)
     = List.length (trades sample_log) / 2.
Proof.
  split; [reflexivity|]. split; [reflexivity|].
  exact (proj1 (proj2 (proj2
           (calculateStatistics_consistent sample_log eq_refl eq_refl)))).
Defined.

(** ** Validation of a descriptor *)

Lemma spec_missing_required (strategy : Strategy.t) (field : string) :
  spec_missing strategy field -> In field required.
Proof. intros [[-> _]|[[-> _]|[-> _]]]; simpl; tauto. Qed.

Lemma spec_missing_iff (strategy : Strategy.t) (field : string) :
  spec_missing strategy field
  <-> In field required /\ field_truthy strategy field = false.
Proof.
  split.
  - intros H. split; [now apply spec_missing_required in H|].
    destruct H as [[-> H]|[[-> H]|[-> H]]]; unfold field_truthy; cbn.
    + destruct H as [->| ->]; reflexivity.
    + now rewrite H.
    + now rewrite H.
  - intros [Hin Hf]. simpl in Hin.
    destruct Hin as [<-|[<-|[<-|[]]]]; unfold field_truthy in Hf; cbn in Hf.
    + left. split; [reflexivity|].
      destruct (Strategy.name strategy) as [n|]; [|now left].
      right. apply negb_false_iff, String.eqb_eq in Hf. now subst.
    + right; left. split; [reflexivity|].
      now destruct (Strategy.indicators strategy).
    + right; right. split; [reflexivity|].
      now destruct (Strategy.conditions strategy).
Qed.

Lemma spec_lacks_iff (p : option Predicate) :
  spec_lacks p <-> predicate_truthy p = false.
Proof.
  unfold spec_lacks. split.
  - intros [->|[->| ->]]; reflexivity.
  - destruct p as [[f|source|[|]]|]; cbn; try discriminate; auto.
    intros H. apply negb_false_iff, String.eqb_eq in H. subst. auto.
Qed.

(** C9. [validateStrategy] leaves the descriptor as it is.  It either
    returns [true] or throws an [Error].  It throws exactly when one of
    [name], [indicators], [conditions] is missing or the conditions lack a
    buy or a sell entry.  The message of the error names every missing
    field. *)
Theorem validateStrategy_spec (strategy : Strategy.t) :
  let r := snd (validateStrategy strategy) in
  fst (validateStrategy strategy) = strategy
  /\ (r = Ok true \/ exists msg, r = Throw (Error msg))
  /\ ((exists msg, r = Throw (Error msg))
      <-> (exists field, spec_missing strategy field)
          \/ (exists c, Strategy.conditions strategy = Some c
                        /\ (spec_lacks (Strategy.buy c)
                            \/ spec_lacks (Strategy.sell c))))
  /\ (forall field,
        spec_missing strategy field ->
        exists msg, r = Throw (Error msg) /\ contains field msg = true).
Proof.
  intros r. subst r.
  pose proof (spec_missing_iff strategy) as Hm.
  assert (Hmiss : forall field, spec_missing strategy field ->
            field = "name"%string /\ field_truthy strategy "name" = false
            \/ field = "indicators"%string
               /\ field_truthy strategy "indicators" = false
            \/ field = "conditions"%string
               /\ field_truthy strategy "conditions" = false).
  { intros field H. apply Hm in H. destruct H as [Hin Hf]. simpl in Hin.
    destruct Hin as [<-|[<-|[<-|[]]]]; auto. }
  assert (Hname := proj2 (Hm "name"%string)).
  assert (Hind := proj2 (Hm "indicators"%string)).
  assert (Hcond := proj2 (Hm "conditions"%string)).
  unfold validateStrategy. unfold required in *. cbn [filter].
  destruct (field_truthy strategy "name") eqn:E1;
    destruct (field_truthy strategy "indicators") eqn:E2;
    destruct (field_truthy strategy "conditions") eqn:E3;
    cbn [negb List.length Nat.ltb Nat.leb fst snd String.concat].
  2-8: (split; [reflexivity|]; split; [right; eauto|]; split;
        [ split; [intros _; left|eauto];
          first [ exists "name"%string; apply Hname; simpl; now auto
                | exists "indicators"%string; apply Hind; simpl; now auto
                | exists "conditions"%string; apply Hcond; simpl; now auto ]
        | intros field Hf; apply Hmiss in Hf;
          destruct Hf as [[-> Hf]|[[-> Hf]|[-> Hf]]]; try congruence;
          eexists; (split; [reflexivity|]); vm_compute; reflexivity ]).
  unfold field_truthy in E3. cbn in E3.
  destruct (Strategy.conditions strategy) as [c|] eqn:Ec; [|discriminate].
  pose proof (spec_lacks_iff (Strategy.buy c)) as Hb.
  pose proof (spec_lacks_iff (Strategy.sell c)) as Hs.
  assert (Hnone : forall field, ~ spec_missing strategy field).
  { intros field Hf. apply Hmiss in Hf.
    destruct Hf as [[_ Hf]|[[_ Hf]|[_ Hf]]]; try congruence;
      unfold field_truthy in Hf; cbn in Hf; rewrite Ec in Hf; discriminate. }
  destruct (predicate_truthy (Strategy.buy c)) eqn:Eb;
    destruct (predicate_truthy (Strategy.sell c)) eqn:Es;
    cbn [negb orb fst snd]; (split; [reflexivity|]).
  - split; [now left|]. split.
    + split; [intros [msg [=]]|].
      intros [[field Hf]|[c' [[= <-] [H|H]]]].
      * now apply Hnone in Hf.
      * apply Hb in H. discriminate.
      * apply Hs in H. discriminate.
    + intros field Hf. now apply Hnone in Hf.
  - split; [right; eauto|]. split.
    + split; [|eauto]. intros _. right. exists c. split; [reflexivity|].
      right. now apply Hs.
    + intros field Hf. now apply Hnone in Hf.
  - split; [right; eauto|]. split.
    + split; [|eauto]. intros _. right. exists c. split; [reflexivity|].
      left. now apply Hb.
    + intros field Hf. now apply Hnone in Hf.
  - split; [right; eauto|]. split.
    + split; [|eauto]. intros _. right. exists c. split; [reflexivity|].
      left. now apply Hb.
    + intros field Hf. now apply Hnone in Hf.
Qed.

(** ** A run on an empty series *)

Lemma mbind_ok_eq (A B : Type) (m : M A) (k : A -> M B) (this this' : Interp)
    (a : A) :
  m this = (this', Ok a) -> mbind m k this = k a this'.
Proof. unfold mbind. now intros ->. Qed.

Lemma mbind_throw_eq (A B : Type) (m : M A) (k : A -> M B)
    (this this' : Interp) (e : error) :
  m this = (this', Throw e) -> mbind m k this = (this', Throw e).
Proof. unfold mbind. now intros ->. Qed.

Arguments mbind_ok_eq {A B m} k {this this' a} _.
Arguments mbind_throw_eq {A B m} k {this this' e} _.

Lemma runs_ok_ret : runs_ok (ret tt).
Proof. intros this. exists this. split; [reflexivity|apply same_run_refl]. Qed.

Lemma runs_ok_set_indicator (key : string) (series : list jsval) :
  runs_ok (set_indicator key series).
Proof. intros this. eexists. split; [reflexivity|]. repeat split. Qed.

Lemma runs_ok_clear_indicators : runs_ok clear_indicators.
Proof. intros this. eexists. split; [reflexivity|]. repeat split. Qed.

Lemma runs_ok_mbind (m : M unit) (k : unit -> M unit) :
  runs_ok m -> runs_ok (k tt) -> runs_ok (mbind m k).
Proof.
  intros Hm Hk this. destruct (Hm this) as [this1 [E1 S1]].
  destruct (Hk this1) as [this2 [E2 S2]]. exists this2.
  rewrite (mbind_ok_eq _ E1). split; [exact E2|].
  eapply same_run_trans; eassumption.
Qed.

Lemma runs_ok_get (k : Interp -> M unit) :
  (forall this, runs_ok (k this)) -> runs_ok (mbind get k).
Proof. intros Hk this. unfold mbind, get. apply Hk. Qed.

Lemma runs_ok_forEach (A : Type) (f : A -> M unit) (l : list A) :
  (forall x, runs_ok (f x)) -> runs_ok (forEach f l).
Proof.
  intros Hf. induction l as [|x l IH]; simpl.
  - apply runs_ok_ret.
  - apply runs_ok_mbind; auto.
Qed.

Lemma runs_ok_when_some (A : Type) (o : option A) (body : A -> M unit) :
  (forall a, runs_ok (body a)) -> runs_ok (when_some o body).
Proof. intros Hb. destruct o; simpl; [apply Hb|apply runs_ok_ret]. Qed.

(** Walks a computation that cannot throw. *)
Ltac runs_ok_tac :=
  cbv beta zeta;
  lazymatch goal with
  | |- runs_ok (mbind get _) => apply runs_ok_get; intro; runs_ok_tac
  | |- runs_ok (mbind _ _) => apply runs_ok_mbind; runs_ok_tac
  | |- runs_ok (when_some _ _) => apply runs_ok_when_some; intro; runs_ok_tac
  | |- runs_ok (forEach _ _) => apply runs_ok_forEach; intro; runs_ok_tac
  | |- runs_ok (set_indicator _ _) => apply runs_ok_set_indicator
  | |- runs_ok clear_indicators => apply runs_ok_clear_indicators
  | |- runs_ok (ret tt) => apply runs_ok_ret
  end.

Lemma calculateStatistics_no_trades (this : Interp) :
  trades this = [] -> calculateStatistics this = zeroed_stats.
Proof. unfold calculateStatistics. now intros ->. Qed.

Section EmptySeries.
Variable Math_sqrt : num -> num.
Variable Number_toString : num -> string.
Variable js_eval : string -> result bool.
Variable strategy : Strategy.t.

Lemma sma_indicators_ok : runs_ok (sma_indicators strategy).
Proof. unfold sma_indicators. runs_ok_tac. Qed.

Lemma rsi_indicator_ok : runs_ok (rsi_indicator strategy).
Proof. unfold rsi_indicator. runs_ok_tac. Qed.

Lemma bollinger_indicators_ok :
  runs_ok (bollinger_indicators Math_sqrt strategy).
Proof. unfold bollinger_indicators. runs_ok_tac. Qed.

Lemma volume_indicator_ok : runs_ok (volume_indicator strategy).
Proof. unfold volume_indicator. runs_ok_tac. Qed.

(** On an empty series the first EMA period throws. *)
Lemma ema_indicators_empty (this : Interp) :
  data this = [] ->
  ema_indicators strategy this
  = (this, match ind_field strategy Ind.ema with
           | Some (_ :: _) => Throw TypeError
           | _ => Ok tt
           end).
Proof.
  intros Hd. unfold ema_indicators.
  destruct (ind_field strategy Ind.ema) as [[|p ps]|]; try reflexivity.
  cbn [when_some forEach]. apply mbind_throw_eq.
  unfold mbind, get, lift. now rewrite (calculateEMA_empty this p Hd).
Qed.

(** On an empty series a MACD request throws. *)
Lemma macd_indicators_empty (this : Interp) :
  data this = [] ->
  macd_indicators strategy this
  = (this, if is_some (ind_field strategy Ind.macd) then Throw TypeError
           else Ok tt).
Proof.
  intros Hd. unfold macd_indicators.
  destruct (ind_field strategy Ind.macd) as [cfg|]; [|reflexivity].
  cbn [when_some is_some]. unfold mbind, get, lift, calculateMACD.
  now rewrite (calculateEMA_empty this _ Hd).
Qed.

(** On an empty series the indicators are computed without an exception
    unless an EMA period or a MACD is requested, in which case
    [this.data[0].close] throws. *)
Lemma calculateIndicators_empty (this : Interp) :
  data this = [] ->
  exists this',
    same_run this this'
    /\ calculateIndicators Math_sqrt strategy this
       = (this', if requests_EMA_or_MACD strategy then Throw TypeError
                 else Ok tt).
Proof.
  intros Hd. unfold calculateIndicators, requests_EMA_or_MACD.
  destruct (runs_ok_clear_indicators this) as [this1 [E1 S1]].
  rewrite (mbind_ok_eq _ E1).
  destruct (sma_indicators_ok this1) as [this2 [E2 S2]].
  rewrite (mbind_ok_eq _ E2).
  assert (S12 : same_run this this2) by (eapply same_run_trans; eassumption).
  assert (Hd2 : data this2 = []) by (destruct S12 as [-> _]; exact Hd).
  pose proof (ema_indicators_empty this2 Hd2) as Eema.
  destruct (match ind_field strategy Ind.ema with
            | Some (_ :: _) => true
            | _ => false
            end) eqn:Ereq.
  { exists this2. split; [exact S12|]. cbn [orb]. apply mbind_throw_eq.
    rewrite Eema. destruct (ind_field strategy Ind.ema) as [[|p ps]|];
      try discriminate; reflexivity. }
  assert (Eema' : ema_indicators strategy this2 = (this2, Ok tt)).
  { rewrite Eema. destruct (ind_field strategy Ind.ema) as [[|p ps]|];
      try discriminate; reflexivity. }
  rewrite (mbind_ok_eq _ Eema'). cbn [orb].
  destruct (rsi_indicator_ok this2) as [this3 [E3 S3]].
  rewrite (mbind_ok_eq _ E3).
  assert (S13 : same_run this this3) by (eapply same_run_trans; eassumption).
  assert (Hd3 : data this3 = []) by (destruct S13 as [-> _]; exact Hd).
  pose proof (macd_indicators_empty this3 Hd3) as Emacd.
  destruct (is_some (ind_field strategy Ind.macd)).
  { exists this3. split; [exact S13|]. now apply mbind_throw_eq. }
  rewrite (mbind_ok_eq _ Emacd).
  destruct (bollinger_indicators_ok this3) as [this4 [E4 S4]].
  rewrite (mbind_ok_eq _ E4).
  destruct (volume_indicator_ok this4) as [this5 [E5 S5]].
  exists this5. split; [|exact E5].
  eapply same_run_trans; [exact S13|].
  eapply same_run_trans; eassumption.
Qed.

Lemma executeTradingLogic_empty (this : Interp) :
  data this = [] ->
  executeTradingLogic Number_toString js_eval strategy this = (this, Ok tt).
Proof.
  intros Hd. unfold executeTradingLogic, mbind, get. rewrite Hd.
  unfold indexed. cbn [List.length seq combine]. now rewrite skipn_nil.
Qed.

(** C10. On an empty bar series ([strategy.data] absent or [[]]),
    [executeStrategy] throws a [TypeError] when the descriptor requests an
    EMA period or a MACD, and otherwise returns the report with no trades,
    no markers and zeroed statistics. *)
Theorem executeStrategy_empty_series (this0 : Interp) :
  Strategy.data strategy = None \/ Strategy.data strategy = Some [] ->
  snd (executeStrategy Math_sqrt Number_toString js_eval strategy this0)
  = if requests_EMA_or_MACD strategy then Throw TypeError
    else Ok (mkReport [] [] [] zeroed_stats (name_or_default strategy)).
Proof.
  intros Hdata. unfold executeStrategy.
  rewrite (mbind_ok_eq (m := reset) (this' := fresh) (a := tt) _ eq_refl).
  assert (Eset : set_data
                   match Strategy.data strategy with
                   | Some d => d
                   | None => []
                   end fresh = (fresh, Ok tt))
    by (destruct Hdata as [-> | ->]; reflexivity).
  rewrite (mbind_ok_eq _ Eset).
  destruct (calculateIndicators_empty fresh eq_refl) as [this1 [S1 E1]].
  destruct S1 as [Hd [Ht [Hb Hs]]]. cbn [fresh data trades buyMarkers
    sellMarkers] in Hd, Ht, Hb, Hs.
  destruct (requests_EMA_or_MACD strategy).
  - now rewrite (mbind_throw_eq _ E1).
  - rewrite (mbind_ok_eq _ E1).
    rewrite (mbind_ok_eq _ (executeTradingLogic_empty this1 Hd)).
    unfold mbind, get, ret. cbn [snd].
    now rewrite (calculateStatistics_no_trades this1 Ht), Ht, Hb, Hs.
Qed.
End EmptySeries.

Lemma executeStrategy_empty_series_witness :
  (Strategy.data macd_no_data = None \/ Strategy.data macd_no_data = Some [])
  /\ snd (executeStrategy sample_sqrt render sample_eval macd_no_data fresh)
     = Throw TypeError.
Proof.
  split; [left; reflexivity|].
  exact (executeStrategy_empty_series sample_sqrt render sample_eval
           macd_no_data fresh (or_introl eq_refl)).
Defined.

(** ** Scenarios of the specification *)

(** Scenario A: one BUY, on bar 10 (the start index, where the close 110
    exceeds the trailing mean 105.5), and no SELL. *)
Example scenario_rising_series :
  trades (fst (executeStrategy sample_sqrt render sample_eval rising_sma10 fresh))
  = [mkTrade 0 BUY (of_Z 110) 10 None None].
Proof. by_evaluation. Qed.

(** Scenario C: one winning round trip. *)
Example scenario_one_round_trip :
  calculateStatistics one_round_trip
  = mkStats 2 1 1 1 0 (of_Z 10) (of_Z 10) zero (of_Z 100) (of_Z 10) zero.
Proof. by_evaluation. Qed.

(** An unmatched trailing BUY, as in scenario D: the open position adds
    nothing to the statistics of [sample_log]. *)
Example scenario_open_position :
  calculateStatistics sample_log
  = mkStats 3 2 1 1 0 (of_Z 10) (of_Z 10) zero (of_Z 100) (of_Z 10) zero.
Proof. by_evaluation. Qed.

(** * Further properties: the indicator engine *)

(** ** Windows and sums *)

Lemma slice_window (A : Type) (l : list A) (i : nat) (period : Z) :
  (0 < period)%Z -> (period - 1 <= Z.of_nat i)%Z -> i < List.length l ->
  slice (Z.of_nat i - period + 1) (Z.of_nat i + 1) l
  = firstn (Z.to_nat period) (skipn (i + 1 - Z.to_nat period) l).
Proof.
  intros Hp Hi Hlen. unfold slice. cbv zeta.
  destruct (Z.of_nat i - period + 1 <? 0)%Z eqn:E1;
    [apply Z.ltb_lt in E1; lia|].
  destruct (Z.of_nat i + 1 <? 0)%Z eqn:E2; [apply Z.ltb_lt in E2; lia|].
  rewrite !Z.min_l by lia.
  f_equal; [lia | f_equal; lia].
Qed.

Lemma length_window (A : Type) (l : list A) (i p : nat) :
  0 < p -> p <= i + 1 -> i < List.length l ->
  List.length (firstn p (skipn (i + 1 - p) l)) = p.
Proof. intros. rewrite length_firstn, length_skipn. lia. Qed.

Lemma slice_map (A B : Type) (f : A -> B) (s e : Z) (l : list A) :
  slice s e (map f l) = map f (slice s e l).
Proof. unfold slice. now rewrite length_map, skipn_map, firstn_map. Qed.

Lemma sum_by_map (A B : Type) (f : A -> B) (g : B -> num) (l : list A) :
  sum_by g (map f l) = sum_by (fun x => g (f x)) l.
Proof.
  unfold sum_by. generalize zero.
  induction l as [|x l IH]; intros acc; [reflexivity|]. simpl. apply IH.
Qed.

Lemma qn_S (n : nat) : qn (S n) = (qn n + 1)%Qc.
Proof.
  unfold qn. apply Qc_is_canon. unfold Qcplus, Q2Qc. cbn [this].
  rewrite !Qred_correct, Nat2Z.inj_succ. unfold Z.succ.
  now rewrite inject_Z_plus.
Qed.

Lemma qn_of_Z (z : Z) : (0 <= z)%Z -> of_Z z = Fin (qn (Z.to_nat z)).
Proof. intros Hz. unfold of_Z, qn. now rewrite Z2Nat.id. Qed.

Lemma qn_nonzero (n : nat) : 0 < n -> qn n <> 0%Qc.
Proof. intros Hn. apply of_Z_nonzero. lia. Qed.

Lemma fold_add_const (A : Type) (f : A -> num) (c : Qc) (l : list A) :
  (forall x, In x l -> f x = Fin c) ->
  forall a : Qc,
    fold_left (fun acc x => (acc + f x)%num) l (Fin a)
    = Fin (a + qn (List.length l) * c).
Proof.
  induction l as [|x l IH]; intros Hc a.
  - simpl. f_equal. change (qn 0) with 0%Qc. ring.
  - cbn [fold_left List.length]. rewrite (Hc x) by now left.
    cbn [add]. rewrite IH by (intros y Hy; apply Hc; now right).
    f_equal. rewrite qn_S. ring.
Qed.

Lemma sum_by_const (A : Type) (f : A -> num) (c : Qc) (l : list A) :
  (forall x, In x l -> f x = Fin c) ->
  sum_by f l = Fin (qn (List.length l) * c).
Proof.
  intros Hc. unfold sum_by. change zero with (Fin 0%Qc).
  rewrite (@fold_add_const _ f c l Hc 0%Qc). f_equal. ring.
Qed.

Lemma In_window (A : Type) (l : list A) (n s : nat) (x : A) :
  In x (firstn n (skipn s l)) -> In x l.
Proof.
  intros H. rewrite <- (firstn_skipn s l). apply in_or_app. right.
  rewrite <- (firstn_skipn n (skipn s l)). apply in_or_app. now left.
Qed.

(** ** Simple moving average *)



Lemma add_zero_l (x : num) : (zero + x)%num = x.
Proof.
  destruct x as [q| | |]; try reflexivity.
  unfold add, zero, of_Z. f_equal. apply Qcplus_0_l.
Qed.

Lemma div_one (x : num) : (x / of_Z 1)%num = x.
Proof.
  destruct x as [q| | |]; try reflexivity.
  unfold div, of_Z. destruct (Qc_eq_dec (Q2Qc (inject_Z 1)) 0) as [E|_].
  - apply of_Z_nonzero in E; [contradiction|lia].
  - f_equal. change (Q2Qc (inject_Z 1)) with 1%Qc. field.
    apply Q_apart_0_1.
Qed.

Lemma skipn_nth_error_cons (A : Type) (l : list A) (i : nat) (x : A) :
  nth_error l i = Some x -> firstn 1 (skipn i l) = [x].
Proof.
  revert i. induction l as [|a l IH]; intros [|i]; simpl; try discriminate.
  - now intros [= ->].
  - apply IH.
Qed.

(** X2. With period 1 the SMA is the series of closes itself, whatever the
    closes are. *)
Theorem calculateSMA_period_1 (this : Interp) :
  calculateSMA this 1 = map (fun b => JNum (close b)) (data this).
Proof.
  apply nth_error_ext. intros i. unfold calculateSMA.
  destruct (Nat.lt_ge_cases i (List.length (data this))) as [Hi|Hi].
  - rewrite nth_error_map_seq by exact Hi. rewrite nth_error_map.
    destruct (nth_error (data this) i) as [b|] eqn:Eb;
      [|apply nth_error_None in Eb; lia].
    destruct (Z.of_nat i <? 1 - 1)%Z eqn:E; [apply Z.ltb_lt in E; lia|].
    cbn [option_map]. do 2 f_equal.
    rewrite slice_window by lia.
    change (Z.to_nat 1) with 1. replace (i + 1 - 1) with i by lia.
    rewrite (@skipn_nth_error_cons _ (data this) i b Eb).
    unfold sum_by. cbn [fold_left]. now rewrite add_zero_l, div_one.
  - rewrite (proj2 (nth_error_None _ _)) by now rewrite length_map, length_seq.
    symmetry. apply nth_error_None. now rewrite length_map.
Qed.

(** ** Exponential moving average *)

Lemma length_spec_EMA_from (k prev : num) (closes : list num) :
  List.length (spec_EMA_from k prev closes) = List.length closes.
Proof.
  revert prev. induction closes as [|c rest IH]; intros prev; simpl; auto.
Qed.

Lemma length_spec_EMA (period : Z) (closes : list num) :
  List.length (spec_EMA period closes) = List.length closes.
Proof.
  destruct closes; simpl; [reflexivity|]. now rewrite length_spec_EMA_from.
Qed.

(** X3. [calculateEMA] throws a [TypeError] on an empty series; on any other
    series it returns one value per bar, the first being the first close. *)
Theorem calculateEMA_shape (this : Interp) (period : Z) :
  match data this with
  | [] => calculateEMA this period = Throw TypeError
  | first :: _ =>
      exists ema,
        calculateEMA this period = Ok ema
        /\ List.length ema = List.length (data this)
        /\ hd_error ema = Some (close first)
  end.
Proof.
  destruct (data this) as [|first rest] eqn:E.
  - now apply calculateEMA_empty.
  - exists (spec_EMA period (map close (data this))). split; [|split].
    + apply calculateEMA_closes. rewrite E. discriminate.
    + now rewrite length_spec_EMA, length_map, E.
    + now rewrite E.
Qed.

Lemma spec_EMA_from_constant (kq c : Qc) (closes : list num) :
  (forall x, In x closes -> x = Fin c) ->
  spec_EMA_from (Fin kq) (Fin c) closes = map (fun _ => Fin c) closes.
Proof.
  induction closes as [|x rest IH]; intros Hc; [reflexivity|].
  cbn [spec_EMA_from map]. rewrite (Hc x) by now left.
  assert (E : (Fin c * Fin kq + Fin c * (of_Z 1 - Fin kq))%num = Fin c).
  { unfold of_Z, sub, neg, mul, add. f_equal.
    change (Q2Qc (inject_Z 1)) with 1%Qc. ring. }
  rewrite E. f_equal. apply IH. intros y Hy. apply Hc. now right.
Qed.



(** ** MACD *)

Lemma length_sub_at (a b : list num) : List.length (sub_at a b) = List.length a.
Proof.
  unfold sub_at, indexed. rewrite length_map, length_combine, length_seq. lia.
Qed.

(** X5. [calculateMACD] throws a [TypeError] on an empty series; on any
    other series it returns three lines with one value per bar each, the
    signal line starting at the first close. *)
Theorem calculateMACD_shape (this : Interp) (fast slow sig : Z) :
  match data this with
  | [] => calculateMACD this fast slow sig = Throw TypeError
  | first :: _ =>
      exists m,
        calculateMACD this fast slow sig = Ok m
        /\ List.length (macd m) = List.length (data this)
        /\ List.length (signal m) = List.length (data this)
        /\ List.length (histogram m) = List.length (data this)
        /\ hd_error (signal m) = Some (close first)
  end.
Proof.
  destruct (data this) as [|first rest] eqn:E.
  - unfold calculateMACD. now rewrite calculateEMA_empty.
  - assert (Hne : data this <> []) by (rewrite E; discriminate).
    unfold calculateMACD. rewrite !calculateEMA_closes by exact Hne.
    cbn [bind]. eexists. split; [reflexivity|]. cbn [macd signal histogram].
    rewrite !length_sub_at, !length_spec_EMA, !length_map, E.
    repeat split; reflexivity.
Qed.

(** ** RSI *)

Lemma nonneg_zero : nonneg zero.
Proof. exists 0%Qc. split; [reflexivity|apply Qcle_refl]. Qed.

Lemma nonneg_add (x y : num) : nonneg x -> nonneg y -> nonneg (x + y)%num.
Proof.
  intros [a [-> Ha]] [b [-> Hb]]. exists (a + b)%Qc. split; [reflexivity|].
  rewrite <- (Qcplus_0_l 0). now apply Qcplus_le_compat.
Qed.

Lemma nonneg_sum (l : list num) :
  (forall x, In x l -> nonneg x) -> nonneg (sum_by (fun x => x) l).
Proof.
  unfold sum_by. generalize nonneg_zero. generalize zero.
  induction l as [|x l IH]; intros acc Hacc Hl; [exact Hacc|].
  cbn [fold_left]. apply IH.
  - apply nonneg_add; [exact Hacc|]. apply Hl. now left.
  - intros y Hy. apply Hl. now right.
Qed.

Lemma Qc_nonneg_div (q : Qc) (p : Z) :
  (0 <= q)%Qc -> (0 < p)%Z -> (0 <= q / Q2Qc (inject_Z p))%Qc.
Proof.
  intros Hq Hp. unfold Qcle, Qcdiv, Qcmult, Qcinv, Q2Qc in *. cbn [this] in *.
  rewrite !Qred_correct.
  assert (Hp' : (0 < inject_Z p)%Q) by (rewrite <- (Zlt_Qlt 0); exact Hp).
  apply Qle_shift_div_l; [exact Hp'|]. now rewrite Qmult_0_l.
Qed.

Lemma nonneg_div (x : num) (p : Z) :
  nonneg x -> (0 < p)%Z -> nonneg (x / of_Z p)%num.
Proof.
  intros [q [-> Hq]] Hp. unfold div, of_Z.
  destruct (Qc_eq_dec (Q2Qc (inject_Z p)) 0) as [E|_].
  - apply of_Z_nonzero in E; [contradiction|lia].
  - eexists. split; [reflexivity|]. now apply Qc_nonneg_div.
Qed.

Lemma nonneg_abs (d : Qc) : nonneg (abs (Fin d)).
Proof.
  unfold abs, gt, zero, of_Z. change (Q2Qc (inject_Z 0)) with 0%Qc.
  destruct (d ?= 0)%Qc eqn:E.
  - exists (- d)%Qc. split; [reflexivity|]. apply Qceq_alt in E. subst d.
    apply Qcle_refl.
  - exists (- d)%Qc. split; [reflexivity|]. apply Qclt_alt in E.
    apply Qclt_le_weak in E. apply Qcopp_le_compat in E. exact E.
  - exists d. split; [reflexivity|]. apply Qcgt_alt in E.
    now apply Qclt_le_weak.
Qed.

Lemma nonneg_gain_of (d : Qc) : nonneg (gain_of (Fin d)).
Proof.
  unfold gain_of, gt, zero, of_Z. change (Q2Qc (inject_Z 0)) with 0%Qc.
  destruct (d ?= 0)%Qc eqn:E; try apply nonneg_zero.
  exists d. split; [reflexivity|]. apply Qcgt_alt in E. now apply Qclt_le_weak.
Qed.

Lemma nonneg_loss_of (d : Qc) : nonneg (loss_of (Fin d)).
Proof.
  unfold loss_of. destruct (lt (Fin d) zero);
    [apply nonneg_abs|apply nonneg_zero].
Qed.

Lemma price_changes_finite (l : list Bar) :
  (forall b, In b l -> exists q, close b = Fin q) ->
  forall x, In x (price_changes l) -> exists d, x = Fin d.
Proof.
  induction l as [|a [|b l] IH]; intros Hfin x; simpl; try tauto.
  intros [<-|Hx].
  - destruct (Hfin a) as [qa Ha]; [simpl; tauto|].
    destruct (Hfin b) as [qb Hb]; [simpl; tauto|].
    rewrite Ha, Hb. eexists. reflexivity.
  - apply IH; [|exact Hx]. intros b' Hb'. apply Hfin. now right.
Qed.

Lemma Q_rsi_range (g l : Q) :
  (0 <= g)%Q -> (0 < l)%Q ->
  (~ inject_Z 1 + g / l == 0
   /\ 0 <= inject_Z 100 + - (inject_Z 100 / (inject_Z 1 + g / l))
   /\ inject_Z 100 + - (inject_Z 100 / (inject_Z 1 + g / l)) <= inject_Z 100)%Q.
Proof.
  intros Hg Hl.
  assert (Hr : (0 <= g / l)%Q).
  { apply Qle_shift_div_l; [exact Hl|]. now rewrite Qmult_0_l. }
  set (r := (g / l)%Q) in *.
  assert (H1 : (inject_Z 1 == 1)%Q) by reflexivity.
  assert (H100 : (inject_Z 100 == 100)%Q) by reflexivity.
  rewrite H1, H100.
  assert (Hd : (0 < 1 + r)%Q) by lra.
  assert (Hx0 : (0 <= 100 / (1 + r))%Q).
  { apply Qle_shift_div_l; [exact Hd|]. lra. }
  assert (Hx1 : (100 / (1 + r) <= 100)%Q).
  { apply Qle_shift_div_r; [exact Hd|]. lra. }
  split; [lra|]. split; lra.
Qed.

Lemma div_nonneg_cases (gq lq : Qc) :
  (0 <= gq)%Qc ->
  (Fin gq / Fin lq)%num = NaN
  \/ (Fin gq / Fin lq)%num = PInf
  \/ (lq <> 0%Qc /\ (Fin gq / Fin lq)%num = Fin (gq / lq)).
Proof.
  intros Hg. unfold div. destruct (Qc_eq_dec lq 0) as [E|E].
  - destruct (gq ?= 0)%Qc eqn:Ec; auto.
    apply Qclt_alt in Ec. now apply Qcle_not_lt in Hg.
  - auto.
Qed.

Lemma rsi_value_range (g l : num) :
  nonneg g -> nonneg l ->
  rsi_value g l = NaN
  \/ exists q : Qc,
       rsi_value g l = Fin q
       /\ (0 <= q)%Qc /\ (q <= Q2Qc (inject_Z 100))%Qc.
Proof.
  intros [gq [-> Hg]] [lq [-> Hl]]. unfold rsi_value. cbv zeta.
  destruct (@div_nonneg_cases gq lq Hg) as [->|[->|[E ->]]].
  - now left.
  - right. eexists. split; [reflexivity|]. split; now compute.
  - right.
    assert (Hl' : (0 < lq)%Q).
    { destruct (Qcle_lt_or_eq _ _ Hl) as [H|H]; [exact H|congruence]. }
    destruct (@Q_rsi_range gq lq Hg Hl') as [Hne [H0 H1]].
    cbn [add of_Z]. unfold div.
    destruct (Qc_eq_dec (Q2Qc (inject_Z 1) + gq / lq) 0) as [E0|_].
    + exfalso. apply Hne. apply (f_equal this) in E0.
      unfold Qcplus, Qcdiv, Qcmult, Qcinv, Q2Qc in E0. cbn [this] in E0.
      apply Qred_eq_iff in E0. rewrite !Qred_correct in E0. exact E0.
    + eexists. split; [reflexivity|].
      unfold Qcle, Qcplus, Qcopp, Qcdiv, Qcmult, Qcinv, Q2Qc. cbn [this].
      rewrite !Qred_correct. split; [exact H0|exact H1].
Qed.

(** X6. On a series of finite closes and for a positive period, every entry
    of the RSI series is [null] (exactly at the indices before [period]),
    or [NaN], or a finite number between 0 and 100. *)
Theorem calculateRSI_range (this : Interp) (period : Z) (i : nat) :
  (forall b, In b (data this) -> exists q, close b = Fin q) ->
  (0 < period)%Z ->
  i < List.length (data this) ->
  exists v,
    nth_error (calculateRSI this period) i = Some v
    /\ rsi_entry v
    /\ is_null v = (Z.of_nat i <? period)%Z.
Proof.
  intros Hfin Hp Hi. unfold calculateRSI.
  rewrite nth_error_map_seq by exact Hi.
  destruct (Z.of_nat i <? period)%Z.
  - exists JNull. repeat split. now left.
  - eexists. split; [reflexivity|]. split; [|reflexivity].
    unfold rsi_entry.
    destruct (@rsi_value_range
                (rsi_avg (map gain_of (price_changes (data this))) i period)
                (rsi_avg (map loss_of (price_changes (data this))) i period))
      as [->|[q [-> Hq]]].
    + unfold rsi_avg. apply nonneg_div; [|exact Hp]. apply nonneg_sum.
      intros x Hx. apply slice_incl in Hx. apply in_map_iff in Hx.
      destruct Hx as [y [<- Hy]].
      destruct (price_changes_finite _ Hfin y Hy) as [d ->].
      apply nonneg_gain_of.
    + unfold rsi_avg. apply nonneg_div; [|exact Hp]. apply nonneg_sum.
      intros x Hx. apply slice_incl in Hx. apply in_map_iff in Hx.
      destruct Hx as [y [<- Hy]].
      destruct (price_changes_finite _ Hfin y Hy) as [d ->].
      apply nonneg_loss_of.
    + right. now left.
    + right. right. exists q. split; [reflexivity|exact Hq].
Qed.

Lemma calculateRSI_range_witness :
  exists v,
    nth_error (calculateRSI (with_closes [1; 2; 3; 2; 5]%Z) 2) 3 = Some v
    /\ rsi_entry v
    /\ is_null v = (Z.of_nat 3 <? 2)%Z.
Proof.
  apply calculateRSI_range.
  - intros b Hb. simpl in Hb.
    destruct Hb as [<-|[<-|[<-|[<-|[<-|[]]]]]]; eexists; reflexivity.
  - lia.
  - simpl. lia.
Defined.

(** ** Bollinger bands and volume SMA *)

(** X7. Whatever [Math.sqrt] returns, the three Bollinger bands have one
    entry per bar, the middle band is the SMA of the same period, and the
    upper and the lower band are [null] at exactly the indices where the
    middle band is, namely before [period - 1]. *)
Theorem calculateBollingerBands_alignment (Math_sqrt : num -> num)
    (this : Interp) (period : Z) (stdDev : num) :
  let bands := calculateBollingerBands Math_sqrt this period stdDev in
  middle bands = calculateSMA this period
  /\ List.length (upper bands) = List.length (data this)
  /\ List.length (lower bands) = List.length (data this)
  /\ map is_null (upper bands) = map is_null (middle bands)
  /\ map is_null (lower bands) = map is_null (middle bands)
  /\ map is_null (middle bands)
     = map (fun i => (Z.of_nat i <? period - 1)%Z)
           (seq 0 (List.length (data this))).
Proof.
  unfold calculateBollingerBands. cbn [upper middle lower].
  split; [reflexivity|].
  rewrite !length_map, length_seq. split; [reflexivity|]. split; [reflexivity|].
  unfold calculateSMA. rewrite !map_map.
  repeat split; apply map_ext; intros i; unfold bollinger_at;
    destruct (Z.of_nat i <? period - 1)%Z; reflexivity.
Qed.

(** X8. The volume SMA is the SMA formula applied to the series in which
    every close is replaced by [candle.volume || 0]. *)
Theorem calculateVolumeSMA_is_SMA_of_volume (this : Interp) (period : Z) :
  calculateVolumeSMA this period
  = calculateSMA (with_data this (map volume_as_close (data this))) period.
Proof.
  unfold calculateVolumeSMA, calculateSMA. cbn [with_data data].
  rewrite length_map. apply map_ext. intros i.
  destruct (Z.of_nat i <? period - 1)%Z; [reflexivity|].
  now rewrite slice_map, sum_by_map.
Qed.

(** ** Alignment of the stored indicators *)

Lemma Forall_obj_set (V : Type) (P : string * V -> Prop) (o : obj V)
    (k : string) (v : V) :
  Forall P o -> (forall k', P (k', v)) -> Forall P (obj_set o k v).
Proof.
  intros Ho Hv. induction Ho as [|[k0 v0] o H0 Ho IH]; simpl.
  - constructor; [apply Hv|constructor].
  - destruct (String.eqb k0 k); constructor; auto.
Qed.

Lemma length_calculateSMA (this : Interp) (period : Z) :
  List.length (calculateSMA this period) = List.length (data this).
Proof. unfold calculateSMA. now rewrite length_map, length_seq. Qed.

Lemma length_calculateRSI (this : Interp) (period : Z) :
  List.length (calculateRSI this period) = List.length (data this).
Proof. unfold calculateRSI. now rewrite length_map, length_seq. Qed.

Lemma length_calculateVolumeSMA (this : Interp) (period : Z) :
  List.length (calculateVolumeSMA this period) = List.length (data this).
Proof. unfold calculateVolumeSMA. now rewrite length_map, length_seq. Qed.

Lemma length_calculateEMA (this : Interp) (period : Z) (ema : list num) :
  calculateEMA this period = Ok ema ->
  List.length ema = List.length (data this).
Proof.
  destruct (data this) as [|first rest] eqn:E.
  - rewrite calculateEMA_empty by exact E. discriminate.
  - rewrite calculateEMA_closes by (rewrite E; discriminate).
    intros [= <-]. now rewrite length_spec_EMA, length_map, E.
Qed.

Lemma length_calculateMACD (this : Interp) (fast slow sig : Z) (m : MACD) :
  calculateMACD this fast slow sig = Ok m ->
  List.length (macd m) = List.length (data this)
  /\ List.length (signal m) = List.length (data this)
  /\ List.length (histogram m) = List.length (data this).
Proof.
  unfold calculateMACD.
  destruct (calculateEMA this fast) as [f|] eqn:Ef; [|discriminate].
  destruct (calculateEMA this slow) as [s|] eqn:Es; [|discriminate].
  destruct (calculateEMA this sig) as [g|] eqn:Eg; [|discriminate].
  cbn [bind]. intros [= <-]. cbn [macd signal histogram].
  rewrite !length_sub_at.
  rewrite (length_calculateEMA _ _ Ef), (length_calculateEMA _ _ Eg). auto.
Qed.

Lemma calculateBollingerBands_lengths (Math_sqrt : num -> num)
    (this : Interp) (period : Z) (stdDev : num) :
  let bands := calculateBollingerBands Math_sqrt this period stdDev in
  List.length (upper bands) = List.length (data this)
  /\ List.length (middle bands) = List.length (data this)
  /\ List.length (lower bands) = List.length (data this).
Proof.
  unfold calculateBollingerBands. cbn [upper middle lower].
  now rewrite !length_map, length_seq, length_calculateSMA.
Qed.

Section Alignment.
Variable d : list Bar.

Lemma keeps_aligned_ret (A : Type) (a : A) : keeps_aligned d (ret a).
Proof. intros this D H. now split. Qed.

Lemma keeps_aligned_mbind (A B : Type) (m : M A) (k : A -> M B) :
  keeps_aligned d m -> (forall a, keeps_aligned d (k a)) ->
  keeps_aligned d (mbind m k).
Proof.
  intros Hm Hk this D H. unfold mbind. destruct (Hm this D H) as [H1 D1].
  destruct (m this) as [this1 [a|e]]; cbn [fst] in *; [|auto].
  apply Hk; assumption.
Qed.

Lemma keeps_aligned_get (B : Type) (k : Interp -> M B) :
  (forall this, data this = d -> keeps_aligned d (k this)) ->
  keeps_aligned d (mbind get k).
Proof. intros Hk this D H. unfold mbind, get. now apply Hk. Qed.

Lemma keeps_aligned_lift (A B : Type) (r : result A) (k : A -> M B) :
  (forall a, r = Ok a -> keeps_aligned d (k a)) ->
  keeps_aligned d (mbind (lift r) k).
Proof.
  intros Hk this D H. unfold mbind, lift.
  destruct r as [a|e]; [now apply Hk|now split].
Qed.

Lemma keeps_aligned_forEach (A : Type) (f : A -> M unit) (l : list A) :
  (forall x, keeps_aligned d (f x)) -> keeps_aligned d (forEach f l).
Proof.
  intros Hf. induction l as [|x l IH]; simpl.
  - apply keeps_aligned_ret.
  - apply keeps_aligned_mbind; auto.
Qed.

Lemma keeps_aligned_when_some (A : Type) (o : option A) (body : A -> M unit) :
  (forall a, keeps_aligned d (body a)) -> keeps_aligned d (when_some o body).
Proof. intros Hb. destruct o; simpl; [apply Hb|apply keeps_aligned_ret]. Qed.

(** Storing a series of the right length. *)
Lemma keeps_aligned_set_indicator (key : string) (series : list jsval) :
  List.length series = List.length d ->
  keeps_aligned d (set_indicator key series).
Proof.
  intros Hlen this D H. split; [|exact D]. unfold aligned, set_indicator.
  cbn [fst indicators data]. apply Forall_obj_set; [exact H|].
  intros k'. cbn [snd]. now rewrite D.
Qed.

Lemma keeps_aligned_sma (strategy : Strategy.t) :
  keeps_aligned d (sma_indicators strategy).
Proof.
  unfold sma_indicators. apply keeps_aligned_when_some. intros periods.
  apply keeps_aligned_forEach. intros p.
  apply keeps_aligned_get. intros this D.
  apply keeps_aligned_set_indicator. now rewrite length_calculateSMA, D.
Qed.

Lemma keeps_aligned_ema (strategy : Strategy.t) :
  keeps_aligned d (ema_indicators strategy).
Proof.
  unfold ema_indicators. apply keeps_aligned_when_some. intros periods.
  apply keeps_aligned_forEach. intros p.
  apply keeps_aligned_get. intros this D.
  apply keeps_aligned_lift. intros ema E.
  apply keeps_aligned_set_indicator. rewrite length_map.
  apply length_calculateEMA in E. now rewrite E, D.
Qed.

Lemma keeps_aligned_rsi (strategy : Strategy.t) :
  keeps_aligned d (rsi_indicator strategy).
Proof.
  unfold rsi_indicator. apply keeps_aligned_when_some. intros cfg.
  apply keeps_aligned_get. intros this D.
  apply keeps_aligned_set_indicator. now rewrite length_calculateRSI, D.
Qed.

Lemma keeps_aligned_macd (strategy : Strategy.t) :
  keeps_aligned d (macd_indicators strategy).
Proof.
  unfold macd_indicators. apply keeps_aligned_when_some. intros cfg.
  apply keeps_aligned_get. intros this D.
  apply keeps_aligned_lift. intros m E.
  apply length_calculateMACD in E. destruct E as [E1 [E2 E3]].
  repeat (apply keeps_aligned_mbind; [|intros _]);
    apply keeps_aligned_set_indicator; rewrite length_map; congruence.
Qed.

Lemma keeps_aligned_bollinger (Math_sqrt : num -> num) (strategy : Strategy.t) :
  keeps_aligned d (bollinger_indicators Math_sqrt strategy).
Proof.
  unfold bollinger_indicators. apply keeps_aligned_when_some. intros cfg.
  apply keeps_aligned_get. intros this D. cbv zeta.
  destruct (calculateBollingerBands_lengths Math_sqrt this
              (or_default (Ind.bb_period cfg) 20)
              (or_default_num (Ind.stdDev cfg) (of_Z 2))) as [Lu [Lm Ll]].
  repeat (apply keeps_aligned_mbind; [|intros _]);
    apply keeps_aligned_set_indicator; congruence.
Qed.

Lemma keeps_aligned_volume (strategy : Strategy.t) :
  keeps_aligned d (volume_indicator strategy).
Proof.
  unfold volume_indicator. apply keeps_aligned_when_some. intros cfg.
  apply keeps_aligned_get. intros this D.
  apply keeps_aligned_set_indicator.
  now rewrite length_calculateVolumeSMA, D.
Qed.
End Alignment.

(** X9. Whatever the descriptor and the state before, every series that
    [calculateIndicators] leaves in [this.indicators] has exactly one entry
    per bar of [this.data] (also when an EMA or MACD request throws on the
    way). *)
Theorem calculateIndicators_aligned (Math_sqrt : num -> num)
    (strategy : Strategy.t) (this : Interp) :
  let this' := fst (calculateIndicators Math_sqrt strategy this) in
  data this' = data this
  /\ Forall (fun kv : string * list jsval =>
               List.length (snd kv) = List.length (data this))
            (indicators this').
Proof.
  cbv zeta. unfold calculateIndicators. unfold mbind at 1.
  cbn [clear_indicators].
  set (this0 := mkInterp [] (data this) (trades this) (buyMarkers this)
                         (sellMarkers this)).
  assert (H0 : aligned this0) by constructor.
  assert (K : keeps_aligned (data this)
                (sma_indicators strategy ;;; ema_indicators strategy ;;;
                 rsi_indicator strategy ;;; macd_indicators strategy ;;;
                 bollinger_indicators Math_sqrt strategy ;;;
                 volume_indicator strategy)).
  { repeat (apply keeps_aligned_mbind; [|intros _]);
      auto using keeps_aligned_sma, keeps_aligned_ema, keeps_aligned_rsi,
        keeps_aligned_macd, keeps_aligned_bollinger, keeps_aligned_volume. }
  destruct (K this0 eq_refl H0) as [H D]. split; [exact D|].
  unfold aligned in H. now rewrite D in H.
Qed.

(** ** The start index and the warm-up *)

Lemma fold_max_ge (l : list Z) :
  forall a : Z,
    (a <= fold_left Z.max l a)%Z
    /\ forall x, In x l -> (x <= fold_left Z.max l a)%Z.
Proof.
  induction l as [|y l IH]; intros a; simpl.
  - split; [lia|tauto].
  - destruct (IH (Z.max a y)) as [H1 H2]. split; [lia|].
    intros x [<-|Hx]; [lia|auto].
Qed.

Lemma max_with_0_ge (periods : list Z) (p : Z) :
  In p periods -> (p <= max_with_0 periods)%Z.
Proof.
  intros Hp. unfold max_with_0. apply fold_max_ge. apply in_or_app. now left.
Qed.

(** X10. From the start index on, every SMA requested in the descriptor,
    its RSI and its Bollinger bands hold numbers: the simulator never
    reads their warm-up sentinel. *)
Theorem start_index_past_warmup (Math_sqrt : num -> num)
    (strategy : Strategy.t) (this : Interp) (i : nat) :
  (getStartIndex strategy <= Z.of_nat i)%Z ->
  i < List.length (data this) ->
  (forall periods p,
      ind_field strategy Ind.sma = Some periods -> In p periods ->
      exists n, nth_error (calculateSMA this p) i = Some (JNum n))
  /\ (forall cfg,
         ind_field strategy Ind.rsi = Some cfg ->
         exists n,
           nth_error (calculateRSI this (or_default (Ind.period cfg) 14)) i
           = Some (JNum n))
  /\ (forall cfg,
         ind_field strategy Ind.bollinger = Some cfg ->
         let bands :=
           calculateBollingerBands Math_sqrt this
             (or_default (Ind.bb_period cfg) 20)
             (or_default_num (Ind.stdDev cfg) (of_Z 2)) in
         exists u l,
           nth_error (upper bands) i = Some (JNum u)
           /\ nth_error (lower bands) i = Some (JNum l)).
Proof.
  intros Hstart Hi. rewrite getStartIndex_periods in Hstart.
  split; [|split].
  - intros periods p E Hp. rewrite E in Hstart.
    assert (p <= Z.of_nat i)%Z.
    { etransitivity; [|exact Hstart]. apply max_with_0_ge.
      apply in_or_app. now left. }
    unfold calculateSMA. rewrite nth_error_map_seq by exact Hi.
    destruct (Z.of_nat i <? p - 1)%Z eqn:El; [apply Z.ltb_lt in El; lia|].
    eexists. reflexivity.
  - intros cfg E. rewrite E in Hstart.
    assert (or_default (Ind.period cfg) 14 <= Z.of_nat i)%Z.
    { etransitivity; [|exact Hstart]. apply max_with_0_ge.
      apply in_or_app. right. apply in_or_app. right.
      apply in_or_app. left. now left. }
    unfold calculateRSI. rewrite nth_error_map_seq by exact Hi.
    destruct (Z.of_nat i <? or_default (Ind.period cfg) 14)%Z eqn:El;
      [apply Z.ltb_lt in El; lia|].
    eexists. reflexivity.
  - intros cfg E. rewrite E in Hstart.
    assert (or_default (Ind.bb_period cfg) 20 <= Z.of_nat i)%Z.
    { etransitivity; [|exact Hstart]. apply max_with_0_ge.
      apply in_or_app. right. apply in_or_app. right.
      apply in_or_app. right. now left. }
    cbv zeta. unfold calculateBollingerBands. cbn [upper lower].
    rewrite !map_map, !nth_error_map_seq by exact Hi. unfold bollinger_at.
    destruct (Z.of_nat i <? or_default (Ind.bb_period cfg) 20 - 1)%Z eqn:El;
      [apply Z.ltb_lt in El; lia|].
    do 2 eexists. split; reflexivity.
Qed.

Lemma start_index_past_warmup_witness :
  exists n,
    nth_error (calculateSMA (with_closes [1; 2; 3; 4]%Z) 3) 3 = Some (JNum n).
Proof.
  assert (H0 : (getStartIndex sma3_strategy <= Z.of_nat 3)%Z)
    by (vm_compute; discriminate).
  assert (H1 : 3 < List.length (data (with_closes [1; 2; 3; 4]%Z)))
    by (simpl; lia).
  exact (proj1 (@start_index_past_warmup sample_sqrt sma3_strategy
                  (with_closes [1; 2; 3; 4]%Z) 3 H0 H1)
               [3%Z] 3%Z eq_refl (or_introl eq_refl)).
Defined.

(** * Further properties: the trade simulator *)

Lemma in_skipn_indexed (A : Type) (l : list A) :
  forall (lo n : nat) (ib : nat * A),
    In ib (skipn n (combine (seq lo (List.length l)) l)) ->
    lo + n <= fst ib /\ nth_error l (fst ib - lo) = Some (snd ib).
Proof.
  induction l as [|a l IH]; intros lo n ib.
  - simpl. rewrite skipn_nil. intros [].
  - destruct n as [|n]; cbn [List.length seq combine skipn].
    + intros [<-|Hin].
      * cbn [fst snd]. rewrite Nat.sub_diag. split; [lia|reflexivity].
      * destruct (IH (S lo) 0 ib Hin) as [Hlo Hnth]. split; [lia|].
        replace (fst ib - lo) with (S (fst ib - S lo)) by lia. exact Hnth.
    + intros Hin. destruct (IH (S lo) n ib Hin) as [Hlo Hnth]. split; [lia|].
      replace (fst ib - lo) with (S (fst ib - S lo)) by lia. exact Hnth.
Qed.

(** The loop of [executeTradingLogic] only visits bars of the series, from
    the start index on. *)
Lemma visited_from_start (d : list Bar) (start : Z) :
  visited d start (skipn (Z.to_nat start) (indexed d)).
Proof.
  unfold visited, indexed. apply Forall_forall. intros ib Hin.
  apply in_skipn_indexed in Hin. destruct Hin as [Hlo Hnth].
  rewrite Nat.sub_0_r in Hnth. split; [lia|exact Hnth].
Qed.

Lemma filter_snoc (A : Type) (f : A -> bool) (l : list A) (x : A) :
  filter f (l ++ [x]) = filter f l ++ (if f x then [x] else []).
Proof. now rewrite filter_app. Qed.

Section SimulatorRun.
Variable Math_sqrt : num -> num.
Variable Number_toString : num -> string.
Variable js_eval : string -> result bool.
Variable strategy : Strategy.t.

(** One round of the loop: nothing changes, or one trade is pushed together
    with its marker. *)
Lemma trade_step_full (pos : Position) (i : nat) (bar : Bar)
    (this this' : Interp) (r : result Position) :
  trade_step Number_toString js_eval strategy pos i bar this = (this', r) ->
  this' = this
  \/ exists t,
       t_time t = time bar /\ price t = close bar /\ index t = i
       /\ ((action t = BUY
            /\ this' = mkInterp (indicators this) (data this)
                         (trades this ++ [t])
                         (buyMarkers this ++ [marker_of t]) (sellMarkers this))
           \/ (action t = SELL
               /\ this' = mkInterp (indicators this) (data this)
                            (trades this ++ [t]) (buyMarkers this)
                            (sellMarkers this ++ [marker_of t]))).
Proof.
  unfold trade_step, mbind, get, lift, ret, push_trade, push_buyMarker,
    push_sellMarker.
  destruct (inPosition pos); cbn [negb].
  - destruct (condition_of strategy Strategy.sell) as [sell|e];
      [|intros [= <- _]; now left].
    destruct (evaluateCondition Number_toString js_eval this sell
                (getIndicatorValues this i) i) as [[|]|e];
      intros [= <- _]; [right|now left|now left].
    exists (mkTrade (time bar) SELL (close bar) i
              (Some (close bar - entryPrice pos)%num)
              (Some ((close bar - entryPrice pos) / entryPrice pos
                     * of_Z 100)%num)).
    cbn [t_time price index action]. split; [reflexivity|].
    split; [reflexivity|]. split; [reflexivity|]. right. now split.
  - destruct (condition_of strategy Strategy.buy) as [buy|e];
      [|intros [= <- _]; now left].
    destruct (evaluateCondition Number_toString js_eval this buy
                (getIndicatorValues this i) i) as [[|]|e];
      intros [= <- _]; [right|now left|now left].
    exists (mkTrade (time bar) BUY (close bar) i None None).
    cbn [t_time price index action]. split; [reflexivity|].
    split; [reflexivity|]. split; [reflexivity|]. left. now split.
Qed.

Lemma trade_step_run_inv (d : list Bar) (start : Z) (pos : Position)
    (i : nat) (bar : Bar) (this this' : Interp) (r : result Position) :
  run_inv d start this ->
  (start <= Z.of_nat i)%Z -> nth_error d i = Some bar ->
  trade_step Number_toString js_eval strategy pos i bar this = (this', r) ->
  run_inv d start this'.
Proof.
  intros [D [Ht [Hb Hs]]] Hi Hbar Hstep.
  apply trade_step_full in Hstep.
  destruct Hstep as [->|[t [Htime [Hprice [Hidx [[Ha ->]|[Ha ->]]]]]]].
  - repeat split; assumption.
  - unfold run_inv. cbn [data trades buyMarkers sellMarkers].
    rewrite !filter_snoc. unfold is_action at 2 4. rewrite Ha.
    rewrite ?app_nil_r, ?map_app. cbn [map]. split; [exact D|]. split.
    + apply Forall_app. split; [exact Ht|]. constructor; [|constructor].
      unfold trade_at_bar. rewrite Hidx. split; [exact Hi|].
      exists bar. auto.
    + split; congruence.
  - unfold run_inv. cbn [data trades buyMarkers sellMarkers].
    rewrite !filter_snoc. unfold is_action at 2 4. rewrite Ha.
    rewrite ?app_nil_r, ?map_app. cbn [map]. split; [exact D|]. split.
    + apply Forall_app. split; [exact Ht|]. constructor; [|constructor].
      unfold trade_at_bar. rewrite Hidx. split; [exact Hi|].
      exists bar. auto.
    + split; congruence.
Qed.

Lemma trade_loop_run_inv (d : list Bar) (start : Z) (bars : list (nat * Bar)) :
  visited d start bars ->
  forall (pos : Position) (this this' : Interp) (r : result Position),
    run_inv d start this ->
    trade_loop Number_toString js_eval strategy pos bars this = (this', r) ->
    run_inv d start this'.
Proof.
  induction 1 as [|[i bar] bars [Hi Hbar] Hbars IH]; intros pos this this' r Hinv.
  - simpl. unfold ret. now intros [= <- _].
  - cbn [trade_loop]. unfold mbind at 1. cbn [fst snd] in Hi, Hbar.
    destruct (trade_step Number_toString js_eval strategy pos i bar this)
      as [this1 r1] eqn:Estep.
    pose proof (@trade_step_run_inv d start pos i bar this this1 r1
                  Hinv Hi Hbar Estep) as Hinv1.
    destruct r1 as [pos1|e].
    + apply IH. exact Hinv1.
    + now intros [= <- _].
Qed.

Lemma executeTradingLogic_run_inv (this : Interp) :
  run_inv (data this) (getStartIndex strategy) this ->
  run_inv (data this) (getStartIndex strategy)
          (fst (executeTradingLogic Number_toString js_eval strategy this)).
Proof.
  intros Hinv. unfold executeTradingLogic, mbind at 1 2, get.
  destruct (trade_loop Number_toString js_eval strategy
              (mkPosition false zero 0)
              (skipn (Z.to_nat (getStartIndex strategy)) (indexed (data this)))
              this) as [this' r] eqn:Eloop.
  apply (@trade_loop_run_inv (data this) (getStartIndex strategy) _
           (visited_from_start (data this) (getStartIndex strategy))
           _ _ _ _ Hinv) in Eloop.
  now destruct r.
Qed.

(** What a run leaves behind, and the report it returns. *)
Lemma executeStrategy_run_inv (this0 : Interp) :
  let run := executeStrategy Math_sqrt Number_toString js_eval strategy this0 in
  run_inv (series_of strategy) (getStartIndex strategy) (fst run)
  /\ match snd run with
     | Ok report =>
         r_trades report = trades (fst run)
         /\ r_buyMarkers report = buyMarkers (fst run)
         /\ r_sellMarkers report = sellMarkers (fst run)
     | Throw _ => True
     end.
Proof.
  intros run. subst run.
  destruct (executeStrategy Math_sqrt Number_toString js_eval strategy this0)
    as [thisF r] eqn:E.
  cbn [fst snd]. unfold executeStrategy, mbind, reset, set_data, get, ret in E.
  cbn [indicators trades buyMarkers sellMarkers] in E.
  fold (series_of strategy) in E.
  match type of E with
  | context [calculateIndicators ?s ?st ?x] =>
      pose proof (calculateIndicators_keeps s st x) as Hk;
      destruct (calculateIndicators s st x) as [this2 [[]|e]]
  end; cbn [fst] in Hk; destruct Hk as [Hd [Htr [Hbm Hsm]]];
    cbn [data trades buyMarkers sellMarkers] in Hd, Htr, Hbm, Hsm.
  - assert (Hinv : run_inv (data this2) (getStartIndex strategy) this2).
    { unfold run_inv. rewrite Htr, Hbm, Hsm. repeat split. constructor. }
    apply executeTradingLogic_run_inv in Hinv. rewrite Hd in Hinv.
    destruct (executeTradingLogic Number_toString js_eval strategy this2)
      as [this3 [[]|e]]; cbn [fst] in Hinv; injection E as <- <-;
      split; auto.
  - injection E as <- <-. split; [|exact I].
    unfold run_inv. rewrite Hd, Htr, Hbm, Hsm. repeat split. constructor.
Qed.

(** X11. Every trade in the log of a run was taken on a bar of the series
    at or after the start index: its index is within the series, its price
    is that bar's close and its time that bar's time. *)
Theorem executeStrategy_trades_on_bars (this0 : Interp) :
  Forall (trade_at_bar (series_of strategy) (getStartIndex strategy))
         (trades (fst (executeStrategy Math_sqrt Number_toString js_eval
                         strategy this0))).
Proof. destruct (executeStrategy_run_inv this0) as [[_ [H _]] _]. exact H. Qed.

(** X12. A run keeps one marker per trade: the buy markers are the markers
    of the BUY trades, in order, and the sell markers those of the SELL
    trades; a returned report carries these lists. *)
Theorem executeStrategy_markers (this0 : Interp) :
  let run := executeStrategy Math_sqrt Number_toString js_eval strategy this0 in
  buyMarkers (fst run)
  = map marker_of (filter (is_action BUY) (trades (fst run)))
  /\ sellMarkers (fst run)
     = map marker_of (filter (is_action SELL) (trades (fst run)))
  /\ match snd run with
     | Ok report =>
         r_buyMarkers report
         = map marker_of (filter (is_action BUY) (r_trades report))
         /\ r_sellMarkers report
            = map marker_of (filter (is_action SELL) (r_trades report))
     | Throw _ => True
     end.
Proof.
  intros run. destruct (executeStrategy_run_inv this0) as [[_ [_ [Hb Hs]]] Hr].
  fold run in Hb, Hs, Hr. split; [exact Hb|]. split; [exact Hs|].
  destruct (snd run) as [report|e]; [|exact I].
  destruct Hr as [-> [-> ->]]. now split.
Qed.

(** A run does not depend on the state the interpreter was left in:
    [executeStrategy] resets it first. *)
Theorem executeStrategy_ignores_previous_state (this0 this1 : Interp) :
  executeStrategy Math_sqrt Number_toString js_eval strategy this0
  = executeStrategy Math_sqrt Number_toString js_eval strategy this1.
Proof. reflexivity. Qed.
End SimulatorRun.

(** ** Runs that return a report *)

Section CompleteRun.
Variable Math_sqrt : num -> num.
Variable Number_toString : num -> string.
Variable js_eval : string -> result bool.
Variable strategy : Strategy.t.

Lemma ema_indicators_nonempty (this : Interp) :
  data this <> [] ->
  exists this', ema_indicators strategy this = (this', Ok tt)
                /\ same_run this this'.
Proof.
  unfold ema_indicators.
  destruct (ind_field strategy Ind.ema) as [periods|]; cbn [when_some];
    [|intros _; exists this; split; [reflexivity|apply same_run_refl]].
  revert this. induction periods as [|p ps IH]; intros this Hne.
  - exists this. split; [reflexivity|apply same_run_refl].
  - cbn [forEach]. unfold mbind at 1 2 3, get, lift.
    rewrite (calculateEMA_closes this p Hne). cbn [set_indicator].
    match goal with
    | |- context [forEach _ ps ?st] => destruct (IH st) as [this' [E S]]
    end; [exact Hne|].
    exists this'. split; [exact E|].
    eapply same_run_trans; [|exact S]. repeat split.
Qed.

Lemma macd_indicators_nonempty (this : Interp) :
  data this <> [] ->
  exists this', macd_indicators strategy this = (this', Ok tt)
                /\ same_run this this'.
Proof.
  intros Hne. unfold macd_indicators.
  destruct (ind_field strategy Ind.macd) as [cfg|]; cbn [when_some];
    [|exists this; split; [reflexivity|apply same_run_refl]].
  unfold mbind, get, lift, calculateMACD.
  rewrite !(fun p => calculateEMA_closes this p Hne). cbn [bind set_indicator].
  eexists. split; [reflexivity|]. repeat split.
Qed.

(** On a non-empty series the indicators are computed without an
    exception. *)
Lemma calculateIndicators_nonempty (this : Interp) :
  data this <> [] ->
  exists this', calculateIndicators Math_sqrt strategy this = (this', Ok tt)
                /\ same_run this this'.
Proof.
  intros Hne. unfold calculateIndicators.
  destruct (runs_ok_clear_indicators this) as [this1 [E1 S1]].
  rewrite (mbind_ok_eq _ E1).
  destruct (sma_indicators_ok strategy this1) as [this2 [E2 S2]].
  rewrite (mbind_ok_eq _ E2).
  assert (S12 : same_run this this2) by (eapply same_run_trans; eassumption).
  assert (Hd2 : data this2 <> []) by (destruct S12 as [-> _]; exact Hne).
  destruct (ema_indicators_nonempty this2 Hd2) as [this3 [E3 S3]].
  rewrite (mbind_ok_eq _ E3).
  destruct (rsi_indicator_ok strategy this3) as [this4 [E4 S4]].
  rewrite (mbind_ok_eq _ E4).
  assert (S14 : same_run this this4)
    by (eapply same_run_trans; [exact S12|];
        eapply same_run_trans; eassumption).
  assert (Hd4 : data this4 <> []) by (destruct S14 as [-> _]; exact Hne).
  destruct (macd_indicators_nonempty this4 Hd4) as [this5 [E5 S5]].
  rewrite (mbind_ok_eq _ E5).
  destruct (bollinger_indicators_ok Math_sqrt strategy this5)
    as [this6 [E6 S6]].
  rewrite (mbind_ok_eq _ E6).
  destruct (volume_indicator_ok strategy this6) as [this7 [E7 S7]].
  exists this7. split; [exact E7|].
  eapply same_run_trans; [exact S14|].
  eapply same_run_trans; [exact S5|].
  eapply same_run_trans; eassumption.
Qed.

Variable c : Strategy.Conditions.
Hypothesis Hconditions : Strategy.conditions strategy = Some c.

Lemma evaluateCondition_total (d : list Bar) (start : Z) (this : Interp)
    (p : option Predicate) (values : obj jsval) (i : nat) (bar : Bar) :
  callable_total d start p ->
  data this = d -> (start <= Z.of_nat i)%Z -> nth_error d i = Some bar ->
  exists b,
    evaluateCondition Number_toString js_eval this p values i = Ok b.
Proof.
  intros Htotal D Hi Hbar. unfold evaluateCondition.
  destruct p as [[f|source|other]|]; try (eexists; reflexivity).
  - rewrite D. apply Htotal; [exact Hi|].
    apply nth_error_Some. congruence.
  - unfold evaluateExpression. rewrite D, Hbar.
    destruct (js_eval _); eexists; reflexivity.
Qed.

Lemma trade_step_total (d : list Bar) (start : Z) (pos : Position) (i : nat)
    (bar : Bar) (this : Interp) :
  callable_total d start (Strategy.buy c) ->
  callable_total d start (Strategy.sell c) ->
  data this = d -> (start <= Z.of_nat i)%Z -> nth_error d i = Some bar ->
  exists this' pos',
    trade_step Number_toString js_eval strategy pos i bar this
    = (this', Ok pos')
    /\ data this' = d.
Proof.
  intros Hb Hs D Hi Hbar.
  unfold trade_step, mbind, get, lift, ret, condition_of, push_trade,
    push_buyMarker, push_sellMarker.
  rewrite Hconditions.
  destruct (inPosition pos); cbn [negb].
  - destruct (@evaluateCondition_total d start this (Strategy.sell c)
                (getIndicatorValues this i) i bar Hs D Hi Hbar) as [b ->].
    destruct b; do 2 eexists; split; try reflexivity; exact D.
  - destruct (@evaluateCondition_total d start this (Strategy.buy c)
                (getIndicatorValues this i) i bar Hb D Hi Hbar) as [b ->].
    destruct b; do 2 eexists; split; try reflexivity; exact D.
Qed.

Lemma trade_loop_total (d : list Bar) (start : Z) (bars : list (nat * Bar)) :
  callable_total d start (Strategy.buy c) ->
  callable_total d start (Strategy.sell c) ->
  visited d start bars ->
  forall (pos : Position) (this : Interp),
    data this = d ->
    exists this' pos',
      trade_loop Number_toString js_eval strategy pos bars this
      = (this', Ok pos').
Proof.
  intros Hb Hs. induction 1 as [|[i bar] bars [Hi Hbar] Hbars IH];
    intros pos this D.
  - do 2 eexists. reflexivity.
  - cbn [fst snd] in Hi, Hbar. cbn [trade_loop].
    destruct (@trade_step_total d start pos i bar this Hb Hs D Hi Hbar)
      as [this1 [pos1 [E D1]]].
    rewrite (mbind_ok_eq _ E). apply IH. exact D1.
Qed.

Lemma executeTradingLogic_total (this : Interp) :
  callable_total (data this) (getStartIndex strategy) (Strategy.buy c) ->
  callable_total (data this) (getStartIndex strategy) (Strategy.sell c) ->
  exists this',
    executeTradingLogic Number_toString js_eval strategy this = (this', Ok tt).
Proof.
  intros Hb Hs. unfold executeTradingLogic. unfold mbind at 1, get.
  destruct (@trade_loop_total (data this) (getStartIndex strategy) _ Hb Hs
              (visited_from_start (data this) (getStartIndex strategy))
              (mkPosition false zero 0) this eq_refl) as [this' [pos' E]].
  rewrite (mbind_ok_eq _ E). eexists. reflexivity.
Qed.

Lemma run_returns (this0 : Interp) :
  series_of strategy <> [] \/ requests_EMA_or_MACD strategy = false ->
  callable_total (series_of strategy) (getStartIndex strategy)
                 (Strategy.buy c) ->
  callable_total (series_of strategy) (getStartIndex strategy)
                 (Strategy.sell c) ->
  exists report,
    snd (executeStrategy Math_sqrt Number_toString js_eval strategy this0)
    = Ok report.
Proof.
  intros Hseries Hb Hs. unfold executeStrategy.
  rewrite (mbind_ok_eq (m := reset) (this' := fresh) (a := tt) _ eq_refl).
  fold (series_of strategy).
  rewrite (mbind_ok_eq (m := set_data (series_of strategy)) (this := fresh)
             (this' := mkInterp [] (series_of strategy) [] [] [])
             (a := tt) _ eq_refl).
  set (this1 := mkInterp [] (series_of strategy) [] [] []).
  assert (Hind : exists this2,
             calculateIndicators Math_sqrt strategy this1 = (this2, Ok tt)
             /\ same_run this1 this2).
  { destruct (series_of strategy) as [|b0 rest] eqn:Ed.
    - destruct Hseries as [Hne|Hreq]; [congruence|].
      destruct (@calculateIndicators_empty Math_sqrt strategy this1 eq_refl)
        as [this2 [S E]].
      rewrite Hreq in E. eauto.
    - apply calculateIndicators_nonempty. discriminate. }
  destruct Hind as [this2 [E2 [D2 _]]]. cbn [this1 data] in D2.
  rewrite (mbind_ok_eq _ E2).
  destruct (executeTradingLogic_total this2) as [this3 E3];
    [now rewrite D2|now rewrite D2|].
  rewrite (mbind_ok_eq _ E3). unfold mbind, get, ret. cbn [snd].
  eexists. reflexivity.
Qed.

(** X13. When the descriptor has its conditions, the series is not empty
    (or neither an EMA nor a MACD is requested), and the callable
    conditions do not throw on the bars from the start index on, a run
    returns a report; in particular textual conditions never abort a run,
    whatever [eval] does with them. *)
Theorem executeStrategy_returns (this0 : Interp) :
  series_of strategy <> [] \/ requests_EMA_or_MACD strategy = false ->
  callable_total (series_of strategy) (getStartIndex strategy)
                 (Strategy.buy c) ->
  callable_total (series_of strategy) (getStartIndex strategy)
                 (Strategy.sell c) ->
  exists report,
    snd (executeStrategy Math_sqrt Number_toString js_eval strategy this0)
    = Ok report.
Proof. exact (run_returns this0). Qed.
End CompleteRun.

Lemma executeStrategy_returns_witness :
  exists report,
    snd (executeStrategy sample_sqrt render sample_eval rising_sma10 fresh)
    = Ok report.
Proof.
  refine (@executeStrategy_returns sample_sqrt render sample_eval rising_sma10
            (Strategy.mkConditions (Some (close_vs_sma10 gt))
                                   (Some (close_vs_sma10 lt)))
            eq_refl fresh _ _ _).
  - left. discriminate.
  - intros values i _ Hi. cbn.
    destruct (nth_error _ i) eqn:E; [eexists; reflexivity|].
    apply nth_error_None in E. cbn in Hi, E. lia.
  - intros values i _ Hi. cbn.
    destruct (nth_error _ i) eqn:E; [eexists; reflexivity|].
    apply nth_error_None in E. cbn in Hi, E. lia.
Defined.

(** * Further properties: the statistics *)

Lemma stats_pair_counts (a b : Trade) (st : Stats) (peak : num) :
  let st' := fst (stats_pair a b (st, peak)) in
  totalTrades st' = totalTrades st
  /\ buyTrades st' = buyTrades st
  /\ sellTrades st' = sellTrades st
  /\ wins st' + losses st'
     = wins st + losses st + (if counted_pair (a, b) then 1 else 0).
Proof.
  unfold stats_pair, counted_pair. cbn [fst snd].
  destruct (is_action BUY a && is_action SELL b); cbn [fst].
  - destruct (gt (price b - price a) zero);
      cbn [totalTrades buyTrades sellTrades wins losses]; repeat split; lia.
  - repeat split; lia.
Qed.

Lemma stats_loop_counts (ts : list Trade) :
  forall (st : Stats) (peak : num),
    let st' := fst (stats_loop ts (st, peak)) in
    totalTrades st' = totalTrades st
    /\ buyTrades st' = buyTrades st
    /\ sellTrades st' = sellTrades st
    /\ wins st' + losses st'
       = wins st + losses st
         + List.length (filter counted_pair (round_trips ts)).
Proof.
  induction ts as [| a | a b l IH] using pairs_ind; intros st peak;
    try (cbn; repeat split; lia).
  destruct (@stats_pair_counts a b st peak) as [H1 [H2 [H3 H4]]].
  cbn [stats_loop round_trips filter].
  destruct (stats_pair a b (st, peak)) as [st1 peak1]. cbn [fst] in *.
  destruct (IH st1 peak1) as [I1 [I2 [I3 I4]]].
  rewrite I1, I2, I3, I4, H1, H2, H3, H4.
  destruct (counted_pair (a, b)); cbn [List.length]; repeat split; lia.
Qed.

Lemma length_filter_le (A : Type) (f : A -> bool) (l : list A) :
  List.length (filter f l) <= List.length l.
Proof. induction l as [|x l IH]; simpl; [lia|]. destruct (f x); simpl; lia. Qed.

(** X14. For every trade log, [totalTrades] is its length and is the sum of
    [buyTrades] and [sellTrades]; [wins + losses] is the number of pairs
    [(trades[2k], trades[2k+1])] that are a BUY followed by a SELL, hence at
    most [floor(trades.length / 2)]. *)
Theorem calculateStatistics_counts (this : Interp) :
  let st := calculateStatistics this in
  totalTrades st = List.length (trades this)
  /\ buyTrades st + sellTrades st = totalTrades st
  /\ wins st + losses st
     = List.length (filter counted_pair (round_trips (trades this)))
  /\ wins st + losses st <= List.length (trades this) / 2.
Proof.
  cbv zeta. unfold calculateStatistics.
  match goal with
  | |- context [stats_loop (trades this) (?s, zero)] =>
      pose proof (@stats_loop_counts (trades this) s zero) as H;
      destruct (stats_loop (trades this) (s, zero)) as [st1 pk]
  end.
  cbn [fst totalTrades buyTrades sellTrades wins losses] in H.
  destruct H as [H1 [H2 [H3 H4]]].
  cbn [totalTrades buyTrades sellTrades wins losses].
  rewrite H1, H2, H3, H4. cbn [Nat.add]. split; [reflexivity|]. split.
  - rewrite <- (length_filter_split (is_action BUY) (trades this)).
    f_equal. f_equal. apply filter_ext. intros t. unfold is_action.
    now destruct (action t).
  - split; [reflexivity|].
    rewrite <- length_round_trips. apply length_filter_le.
Qed.

(** ** Drawdown *)

Lemma gt_trans_zero (a b : num) :
  gt a b = true -> (b = zero \/ gt b zero = true) -> gt a zero = true.
Proof.
  intros Hab [->|Hb]; [exact Hab|].
  destruct a as [p| | |], b as [q| | |]; try discriminate; try reflexivity.
  unfold gt, zero, of_Z in *. change (Q2Qc (inject_Z 0)) with 0%Qc in *.
  destruct (p ?= q)%Qc eqn:Epq; try discriminate.
  destruct (q ?= 0)%Qc eqn:Eq0; try discriminate.
  apply Qcgt_alt in Epq, Eq0.
  assert (H : (0 < p)%Qc) by (eapply Qclt_trans; eassumption).
  apply Qcgt_alt in H. now rewrite H.
Qed.

Lemma stats_pair_drawdown (a b : Trade) (st : Stats) (peak : num) :
  (maxDrawdown st = zero \/ gt (maxDrawdown st) zero = true) ->
  let st' := fst (stats_pair a b (st, peak)) in
  maxDrawdown st' = zero \/ gt (maxDrawdown st') zero = true.
Proof.
  intros H. unfold stats_pair.
  destruct (is_action BUY a && is_action SELL b); cbn [fst]; [|exact H].
  cbn [maxDrawdown].
  match goal with
  | |- context [if gt ?cd (maxDrawdown st) then _ else _] =>
      destruct (gt cd (maxDrawdown st)) eqn:E; [|exact H];
      right; exact (@gt_trans_zero cd (maxDrawdown st) E H)
  end.
Qed.

Lemma stats_loop_drawdown (ts : list Trade) :
  forall (st : Stats) (peak : num),
    (maxDrawdown st = zero \/ gt (maxDrawdown st) zero = true) ->
    let st' := fst (stats_loop ts (st, peak)) in
    maxDrawdown st' = zero \/ gt (maxDrawdown st') zero = true.
Proof.
  induction ts as [| a | a b l IH] using pairs_ind; intros st peak H;
    try exact H.
  cbn [stats_loop]. pose proof (@stats_pair_drawdown a b st peak H) as H1.
  destruct (stats_pair a b (st, peak)) as [st1 peak1]. cbn [fst] in H1.
  now apply IH.
Qed.

(** X15. Whatever the trade log and its prices (infinite or [NaN]
    included), the reported [maxDrawdown] is [0] or a number greater than
    [0]: it is never negative and never [NaN]. *)
Theorem calculateStatistics_maxDrawdown (this : Interp) :
  let md := maxDrawdown (calculateStatistics this) in
  md = zero \/ gt md zero = true.
Proof.
  cbv zeta. unfold calculateStatistics.
  match goal with
  | |- context [stats_loop (trades this) (?s, zero)] =>
      pose proof (@stats_loop_drawdown (trades this) s zero
                    (or_introl eq_refl)) as H;
      destruct (stats_loop (trades this) (s, zero)) as [st1 pk]
  end.
  exact H.
Qed.

(** ** An unmatched last trade *)

Lemma stats_loop_snoc_even (ts : list Trade) (t : Trade) :
  Nat.even (List.length ts) = true ->
  forall st, stats_loop (ts ++ [t]) st = stats_loop ts st.
Proof.
  induction ts as [| a | a b l IH] using pairs_ind; intros Heven st.
  - reflexivity.
  - discriminate.
  - cbn [app stats_loop]. apply IH. exact Heven.
Qed.

Lemma stats_pair_performance (a b : Trade) (st1 st2 : Stats) (peak : num) :
  performance st1 = performance st2 ->
  performance (fst (stats_pair a b (st1, peak)))
  = performance (fst (stats_pair a b (st2, peak)))
  /\ snd (stats_pair a b (st1, peak)) = snd (stats_pair a b (st2, peak)).
Proof.
  unfold performance. intros [= Hw Hl Htp Htpp Hmd Hwr Haw Hal].
  unfold stats_pair. destruct (is_action BUY a && is_action SELL b);
    cbn [fst snd wins losses totalProfit totalProfitPercent maxDrawdown
         winRate avgWin avgLoss];
    rewrite ?Hw, ?Hl, ?Htp, ?Htpp, ?Hmd, ?Hwr, ?Haw, ?Hal; split; reflexivity.
Qed.

Lemma stats_loop_performance (ts : list Trade) :
  forall (st1 st2 : Stats) (peak : num),
    performance st1 = performance st2 ->
    performance (fst (stats_loop ts (st1, peak)))
    = performance (fst (stats_loop ts (st2, peak))).
Proof.
  induction ts as [| a | a b l IH] using pairs_ind; intros st1 st2 peak H;
    try exact H.
  cbn [stats_loop].
  destruct (@stats_pair_performance a b st1 st2 peak H) as [Hp Hpk].
  destruct (stats_pair a b (st1, peak)) as [s1 p1].
  destruct (stats_pair a b (st2, peak)) as [s2 p2].
  cbn [fst snd] in Hp, Hpk. subst p2. now apply IH.
Qed.

(** X16. A last trade without a partner changes nothing but the counts of
    trades: when the log has an even length, appending any trade leaves
    wins, losses, total profit, drawdown, win rate and both averages as they
    were, and adds one to [totalTrades]. *)
Theorem calculateStatistics_unmatched_last (this : Interp) (t : Trade) :
  Nat.even (List.length (trades this)) = true ->
  performance (calculateStatistics (with_trades this (trades this ++ [t])))
  = performance (calculateStatistics this)
  /\ totalTrades (calculateStatistics (with_trades this (trades this ++ [t])))
     = S (totalTrades (calculateStatistics this)).
Proof.
  intros Heven. unfold calculateStatistics. cbn [with_trades trades].
  rewrite (stats_loop_snoc_even _ t Heven).
  match goal with
  | |- context [performance
                  (let '(_, _) := stats_loop (trades this) (?s1, zero) in _)
                = performance
                    (let '(_, _) := stats_loop (trades this) (?s2, zero) in _)]
    =>
      pose proof (@stats_loop_performance (trades this) s1 s2 zero eq_refl)
        as Hp;
      pose proof (@stats_loop_counts (trades this) s1 zero) as [C1 _];
      pose proof (@stats_loop_counts (trades this) s2 zero) as [C2 _];
      destruct (stats_loop (trades this) (s1, zero)) as [r1 k1];
      destruct (stats_loop (trades this) (s2, zero)) as [r2 k2]
  end.
  cbn [fst totalTrades] in Hp, C1, C2. unfold performance in Hp.
  injection Hp as Hw Hl Htp Htpp Hmd Hwr Haw Hal.
  unfold performance.
  cbn [wins losses totalProfit totalProfitPercent maxDrawdown winRate avgWin
       avgLoss totalTrades].
  rewrite Hw, Hl, Htp, Htpp, Hmd, Haw, Hal, C1, C2, length_app.
  cbn [List.length]. split; [reflexivity|lia].
Qed.

Lemma calculateStatistics_unmatched_last_witness :
  performance
    (calculateStatistics
       (with_trades one_round_trip
          (trades one_round_trip ++ [mkTrade 2 BUY (of_Z 95) 2 None None])))
  = performance (calculateStatistics one_round_trip).
Proof.
  exact (proj1 (@calculateStatistics_unmatched_last one_round_trip
                  (mkTrade 2 BUY (of_Z 95) 2 None None) eq_refl)).
Defined.

(** ** The report of a run against its trade log *)

Lemma nth_error_round_trips (ts : list Trade) :
  forall (k : nat) (b s : Trade),
    nth_error (round_trips ts) k = Some (b, s) ->
    nth_error ts (2 * k) = Some b /\ nth_error ts (2 * k + 1) = Some s.
Proof.
  induction ts as [| a | a0 b0 l IH] using pairs_ind; intros k b s.
  - destruct k; discriminate.
  - destruct k; discriminate.
  - destruct k as [|k]; cbn [round_trips nth_error].
    + intros [= <- <-]. split; reflexivity.
    + intros H. apply IH in H. destruct H as [H1 H2].
      replace (2 * S k) with (S (S (2 * k))) by lia.
      replace (S (S (2 * k)) + 1) with (S (S (2 * k + 1))) by lia.
      split; assumption.
Qed.

Lemma firstn_S_nth_error (A : Type) (l : list A) :
  forall (n : nat) (x : A),
    nth_error l n = Some x -> firstn (S n) l = firstn n l ++ [x].
Proof.
  induction l as [|a l IH]; intros [|n] x; simpl; try discriminate.
  - now intros [= ->].
  - intros H. f_equal. now apply IH.
Qed.

(** In a well-formed log every round trip is a BUY followed by a SELL whose
    profit field is the difference of the two prices. *)
Lemma log_wf_round_trips (log : list Trade) :
  log_wf log ->
  Forall (fun p => action (fst p) = BUY /\ action (snd p) = SELL
                   /\ profit (snd p) = Some (trip_profit p))
         (round_trips log).
Proof.
  intros [Halt Hfirst _ Hprofit].
  pose proof (alternating_round_trips log Halt Hfirst) as Hpairs.
  rewrite Forall_forall in Hpairs. apply Forall_forall. intros [b s] Hin.
  destruct (Hpairs _ Hin) as [Hb Hs]. cbn [fst snd] in *.
  split; [exact Hb|]. split; [exact Hs|].
  apply In_nth_error in Hin. destruct Hin as [k Hk].
  apply nth_error_round_trips in Hk. destruct Hk as [Hkb Hks].
  specialize (Hprofit (2 * k + 1)). unfold trade_profit_ok in Hprofit.
  rewrite Hks, Hs in Hprofit. destruct Hprofit as [b' [Hlast [Hp _]]].
  replace (2 * k + 1) with (S (2 * k)) in Hlast by lia.
  rewrite (firstn_S_nth_error _ _ Hkb), last_BUY_snoc in Hlast.
  unfold is_action in Hlast. rewrite Hb in Hlast. injection Hlast as <-.
  exact Hp.
Qed.

Lemma alternating_tail (a b : Trade) (l : list Trade) :
  alternating (a :: b :: l) = true -> first_is_BUY (a :: b :: l) = true ->
  alternating l = true /\ first_is_BUY l = true.
Proof.
  intros Halt Hfirst. cbn in Halt, Hfirst. apply andb_true_iff in Halt.
  destruct Halt as [Hab Halt]. destruct l as [|c l]; [now split|].
  apply andb_true_iff in Halt. destruct Halt as [Hbc Halt]. split; [exact Halt|].
  cbn. destruct (action a), (action b), (action c); auto; discriminate.
Qed.

Lemma sell_profits_round_trips (ts : list Trade) :
  alternating ts = true -> first_is_BUY ts = true ->
  Forall (fun p => action (fst p) = BUY /\ action (snd p) = SELL
                   /\ profit (snd p) = Some (trip_profit p))
         (round_trips ts) ->
  sell_profits ts = map trip_profit (round_trips ts).
Proof.
  induction ts as [| a | a b l IH] using pairs_ind; intros Halt Hfirst Hp.
  - reflexivity.
  - cbn in Hfirst |- *. destruct (action a); [reflexivity|discriminate].
  - cbn [round_trips] in Hp. inversion Hp as [|p ps [Ha [Hb Hprofit]] Hrest].
    subst. cbn [fst snd] in Ha, Hb, Hprofit.
    destruct (alternating_tail _ _ _ Halt Hfirst) as [Halt' Hfirst'].
    unfold sell_profits in *. cbn [flat_map round_trips map].
    rewrite Ha, Hb, Hprofit. cbn [app]. f_equal. now apply IH.
Qed.

Lemma stats_loop_total (ts : list Trade) :
  Forall (fun p => action (fst p) = BUY /\ action (snd p) = SELL)
         (round_trips ts) ->
  forall (st : Stats) (peak : num),
    totalProfit (fst (stats_loop ts (st, peak)))
    = fold_left (fun acc x => (acc + x)%num)
        (map trip_profit (round_trips ts)) (totalProfit st).
Proof.
  induction ts as [| a | a b l IH] using pairs_ind; intros Hpairs st peak;
    try reflexivity.
  cbn [round_trips] in Hpairs. inversion Hpairs as [|p ps [Ha Hb] Hrest]; subst.
  cbn [fst snd] in Ha, Hb. cbn [stats_loop round_trips map fold_left].
  assert (E : totalProfit (fst (stats_pair a b (st, peak)))
              = (totalProfit st + trip_profit (a, b))%num).
  { unfold stats_pair, is_action, trip_profit. rewrite Ha, Hb.
    cbn [andb fst snd]. reflexivity. }
  destruct (stats_pair a b (st, peak)) as [st1 peak1]. cbn [fst] in E.
  rewrite (IH Hrest st1 peak1). now rewrite E.
Qed.

Section Report.
Variable Math_sqrt : num -> num.
Variable Number_toString : num -> string.
Variable js_eval : string -> result bool.
Variable strategy : Strategy.t.

(** The report a run returns, in terms of the state it leaves. *)
Lemma executeStrategy_report (this0 : Interp) :
  let run := executeStrategy Math_sqrt Number_toString js_eval strategy this0 in
  match snd run with
  | Ok report =>
      report = mkReport (trades (fst run)) (buyMarkers (fst run))
                 (sellMarkers (fst run)) (calculateStatistics (fst run))
                 (name_or_default strategy)
  | Throw _ => True
  end.
Proof.
  intros run. subst run.
  destruct (executeStrategy Math_sqrt Number_toString js_eval strategy this0)
    as [thisF r] eqn:E.
  cbn [fst snd]. unfold executeStrategy, mbind, reset, set_data, get, ret in E.
  match type of E with
  | context [calculateIndicators ?s ?st ?x] =>
      destruct (calculateIndicators s st x) as [this2 [[]|e]]
  end; [|injection E as <- <-; exact I].
  destruct (executeTradingLogic Number_toString js_eval strategy this2)
    as [this3 [[]|e]]; injection E as <- <-; [reflexivity|exact I].
Qed.

(** X17. In the report of a run the statistics agree with the trade log:
    [totalProfit] is the sum of the [profit] fields of the SELL trades,
    [wins] counts the positive ones and [losses] the others. *)
Theorem executeStrategy_report_consistent (this0 : Interp) :
  match snd (executeStrategy Math_sqrt Number_toString js_eval strategy this0)
  with
  | Ok report =>
      let profits := sell_profits (r_trades report) in
      totalProfit (stats report) = sum_by (fun x => x) profits
      /\ wins (stats report) = List.length (filter is_win profits)
      /\ losses (stats report) = List.length (filter not_win profits)
  | Throw _ => True
  end.
Proof.
  pose proof (executeStrategy_report this0) as Hrep.
  pose proof (executeStrategy_log Math_sqrt Number_toString js_eval strategy
                this0) as [Hwf _].
  cbv zeta in Hrep, Hwf.
  destruct (executeStrategy Math_sqrt Number_toString js_eval strategy this0)
    as [thisF [report|e]]; [|exact I].
  cbn [fst snd] in *. subst report. cbn [r_trades stats]. cbv zeta.
  pose proof (log_wf_round_trips Hwf) as Hp.
  rewrite (@sell_profits_round_trips (trades thisF) (wf_alternating Hwf)
             (wf_first Hwf) Hp).
  assert (Hpairs : Forall (fun p => action (fst p) = BUY
                                    /\ action (snd p) = SELL)
                          (round_trips (trades thisF))).
  { eapply Forall_impl; [|exact Hp]. intros p [Ha [Hb _]]. now split. }
  unfold calculateStatistics.
  match goal with
  | |- context [stats_loop (trades thisF) (?s, zero)] =>
      pose proof (@stats_loop_acc (trades thisF) Hpairs s zero) as Hacc;
      pose proof (@stats_loop_total (trades thisF) Hpairs s zero) as Htot;
      destruct (stats_loop (trades thisF) (s, zero)) as [st1 pk]
  end.
  cbn [fst wins losses totalProfit] in Hacc, Htot.
  destruct Hacc as [Hw [Hl _]]. cbn [Nat.add] in Hw, Hl.
  cbn [totalProfit wins losses]. repeat split; assumption.
Qed.
End Report.

(** * Further properties: the entry points *)

(** X18. [interpret] on a string returns a report or throws
    [Error('Invalid strategy string format')] and nothing else: the
    [catch] of [parseStringStrategy] also covers the exceptions of
    [executeStrategy].  On an object it is [executeStrategy]; on [null]
    (whose [typeof] is ['object']) the state is reset and a [TypeError]
    is thrown; on any other value it throws
    [Error('Invalid strategy format')] and leaves the state alone. *)
Theorem interpret_outcomes (Math_sqrt : num -> num)
    (Number_toString : num -> string) (js_eval : string -> result bool)
    (JSON_parse : string -> result json) (x : js_input) (this : Interp) :
  let run := interpret Math_sqrt Number_toString js_eval JSON_parse x this in
  match x with
  | InString s =>
      (exists report, snd run = Ok report)
      \/ snd run = Throw (Error "Invalid strategy string format")
  | InObject o =>
      run = executeStrategy Math_sqrt Number_toString js_eval o this
  | InNull => run = (fresh, Throw TypeError)
  | InOther => run = (this, Throw (Error "Invalid strategy format"))
  end.
Proof.
  destruct x as [s|o| |]; cbv zeta; try reflexivity.
  unfold interpret, parseStringStrategy, try_catch, mbind, lift, throw.
  destruct (JSON_parse s) as [v|e]; [|now right].
  destruct (executeStrategy_value Math_sqrt Number_toString js_eval v this)
    as [this' [report|e]]; cbn [snd]; [left; now exists report|now right].
Qed.

(** * Further properties: the strategy library *)

Lemma obj_get_delete (V : Type) (o : obj V) (k k' : string) :
  obj_get (obj_delete o k) k'
  = if String.eqb k k' then None else obj_get o k'.
Proof.
  induction o as [|[k0 v0] o IH]; simpl.
  - now destruct (String.eqb k k').
  - destruct (String.eqb k0 k) eqn:E0; simpl.
    + apply String.eqb_eq in E0. subst k0. rewrite IH.
      now destruct (String.eqb k k').
    + rewrite IH. destruct (String.eqb k0 k') eqn:E1; [|reflexivity].
      apply String.eqb_eq in E1. subst k0.
      now rewrite String.eqb_sym, E0.
Qed.

(** X19. Adding a strategy and reading it back gives that strategy, and
    removing it afterwards makes the read [undefined] again (a prototype
    member for the names of [Object.prototype]); neither operation changes
    what any other identifier reads. *)
Theorem library_add_get_remove (lib : Library.t) (id : string)
    (strategy : Library.Entry) :
  id <> "__proto__"%string ->
  Library.getStrategy (Library.addStrategy lib id strategy) id = Own strategy
  /\ Library.getStrategy
       (Library.removeStrategy (Library.addStrategy lib id strategy) id) id
     = (if is_prototype_name id then Inherited else Undefined)
  /\ (forall id',
         id' <> id ->
         Library.getStrategy (Library.addStrategy lib id strategy) id'
         = Library.getStrategy lib id'
         /\ Library.getStrategy (Library.removeStrategy lib id) id'
            = Library.getStrategy lib id').
Proof.
  intros _. unfold Library.getStrategy, Library.addStrategy,
    Library.removeStrategy, js_get.
  split; [|split].
  - now rewrite obj_get_set, String.eqb_refl.
  - now rewrite obj_get_delete, String.eqb_refl.
  - intros id' Hne. rewrite obj_get_set, obj_get_delete.
    assert (E : String.eqb id id' = false)
      by (apply String.eqb_neq; congruence).
    now rewrite E.
Qed.

Lemma library_add_get_remove_witness :
  Library.getStrategy
    (Library.addStrategy Library.builtin "mine"
       (Library.mkEntry None (Strategy.mk None None None None)))
    "mine"
  = Own (Library.mkEntry None (Strategy.mk None None None None)).
Proof.
  refine (proj1 (@library_add_get_remove Library.builtin "mine"
                   (Library.mkEntry None (Strategy.mk None None None None))
                   _)).
  discriminate.
Defined.

Lemma obj_get_In (V : Type) (o : obj V) (k : string) (v : V) :
  obj_get o k = Some v -> In (k, v) o.
Proof.
  induction o as [|[k0 v0] o IH]; simpl; [discriminate|].
  destruct (String.eqb k0 k) eqn:E.
  - apply String.eqb_eq in E. subst. intros [= ->]. now left.
  - intros H. right. now apply IH.
Qed.

Lemma obj_get_NoDup (V : Type) (o : obj V) (k : string) (v : V) :
  NoDup (obj_keys o) -> In (k, v) o -> obj_get o k = Some v.
Proof.
  induction o as [|[k0 v0] o IH]; simpl; [tauto|].
  intros Hnd [[= -> ->]|Hin].
  - now rewrite String.eqb_refl.
  - inversion Hnd as [|? ? Hnotin Hnd']; subst.
    destruct (String.eqb k0 k) eqn:E; [|now apply IH].
    apply String.eqb_eq in E. subst k0. exfalso. apply Hnotin.
    unfold obj_keys. apply in_map_iff. now exists (k, v).
Qed.


Lemma plain_library_builtin : plain_library Library.builtin.
Proof.
  split.
  - unfold obj_keys, Library.builtin. cbn [map fst].
    repeat (constructor; [cbn [In]; intuition discriminate|]). constructor.
  - repeat constructor; discriminate.
Qed.


(** X21. The library the constructor builds is consistent: its fourteen
    identifiers are distinct and plain, every strategy passes
    [validateStrategy], and every strategy has a name and a description. *)
Theorem builtin_library_valid :
  List.length Library.builtin = 14
  /\ plain_library Library.builtin
  /\ Forall (fun kv : string * Library.Entry =>
               snd (validateStrategy (Library.descriptor (snd kv))) = Ok true
               /\ is_some (Strategy.name (Library.descriptor (snd kv))) = true
               /\ is_some (Library.description (snd kv)) = true)
            Library.builtin.
Proof.
  split; [reflexivity|]. split; [exact plain_library_builtin|].
  repeat constructor.
Qed.

(** X22. [getStrategiesByCategory] only names strategies of the built-in
    library: every identifier it returns reads an own strategy there.  An
    unknown category gives the empty list, except for the names of
    [Object.prototype], which give a prototype member. *)
Theorem categories_name_builtin_strategies (category : string) :
  match Library.getStrategiesByCategory category with
  | Own ids =>
      forallb (fun id => is_own (Library.getStrategy Library.builtin id)) ids
      = true
      /\ (obj_get Library.categories category = None -> ids = [])
  | Inherited => is_prototype_name category = true
  | Undefined => False
  end.
Proof.
  unfold Library.getStrategiesByCategory, js_get.
  destruct (obj_get Library.categories category) as [ids|] eqn:E.
  - split; [|discriminate]. apply obj_get_In in E. simpl in E.
    repeat (destruct E as [[= <- <-]|E]; [reflexivity|]). destruct E.
  - destruct (is_prototype_name category); [reflexivity|]. now split.
Qed.

(** ** Custom strategies *)

Lemma condition_or_never_truthy (c : option Predicate) :
  predicate_truthy (Some (Library.condition_or_never c)) = true.
Proof.
  unfold Library.condition_or_never.
  destruct (predicate_truthy c) eqn:E; [|reflexivity].
  destruct c as [p|]; [exact E|discriminate].
Qed.

Lemma string_or_nonempty (s : option string) (d : string) :
  d <> EmptyString -> String.eqb (Library.string_or s d) "" = false.
Proof.
  intros Hd. unfold Library.string_or. destruct s as [x|].
  - destruct (String.eqb x "") eqn:E; [|exact E]. now apply String.eqb_neq.
  - now apply String.eqb_neq.
Qed.


(** ** Runs of the built-in strategies *)

Lemma close_at_total (d : list Bar) (i : nat) :
  i < List.length d -> exists c, Library.close_at d i = Ok c.
Proof.
  intros Hi. unfold Library.close_at.
  destruct (nth_error d i) eqn:E; [eexists; reflexivity|].
  apply nth_error_None in E. lia.
Qed.

Lemma compare_close_total (cmp : num -> num -> bool) (d : list Bar) (i : nat)
    (x : num) :
  i < List.length d -> exists b, Library.compare_close cmp d i x = Ok b.
Proof.
  intros Hi. unfold Library.compare_close.
  destruct (close_at_total d Hi) as [c ->]. eexists. reflexivity.
Qed.

Lemma compare_previous_total (cmp : num -> num -> bool) (d : list Bar)
    (i : nat) :
  0 < i -> i < List.length d ->
  exists b, Library.compare_previous cmp d i = Ok b.
Proof.
  intros H0 Hi. unfold Library.compare_previous.
  destruct (close_at_total d Hi) as [c ->].
  destruct i as [|j]; [lia|]. cbn [Library.close_before bind].
  destruct (@close_at_total d j) as [p ->]; [lia|]. eexists. reflexivity.
Qed.

Lemma and_then_total (a b : result bool) :
  (exists x, a = Ok x) -> (exists y, b = Ok y) ->
  exists z, Library.and_then a b = Ok z.
Proof. intros [[|] ->] [y ->]; eexists; reflexivity. Qed.

Lemma or_else_total (a b : result bool) :
  (exists x, a = Ok x) -> (exists y, b = Ok y) ->
  exists z, Library.or_else a b = Ok z.
Proof. intros [[|] ->] [y ->]; eexists; reflexivity. Qed.

(** Evaluates the start index in a hypothesis. *)
Ltac eval_start H :=
  match type of H with
  | (getStartIndex ?s <= _)%Z =>
      let v := eval vm_compute in (getStartIndex s) in
      change (getStartIndex s) with v in H
  end.

(** Solves the totality of a built-in condition at an index [i] of the
    series that is at or after the start index. *)
Ltac total_condition :=
  repeat first
    [ apply and_then_total
    | apply or_else_total
    | apply compare_close_total; assumption
    | apply compare_previous_total; [lia|assumption]
    | eexists; reflexivity ].


